(** * seoAI: the evaluation orchestrator and the authentication wrappers

    A shallow embedding of [src/lib/server/evaluator/index.js]
    ([initiateEvaluation]) and of the Firebase authentication wrappers
    ([register], [login], [resetPassword]).

    JavaScript objects are finite maps from property names to values, the
    synchronous part of an [async] function is a computation in a state and
    exception monad, and every [await] on an external promise is a point
    where the environment chooses how, and in which order, the promise
    settles. *)

From stdpp Require Import base option list gmap strings.

Set Default Proof Using "Type".

(** ** JavaScript values, objects, completions *)

Module JS.

(** The values that flow through the two modules.  [JData] stands for a
    record owned by a collaborator (a category slice, an issue result, an
    error); [JPromise v] is a promise that would later fulfil with [v]. *)
Inductive jsval : Type :=
| JUndefined
| JStr (s : string)
| JData (tag : nat)
| JPromise (eventual : jsval).

#[global] Instance jsval_eq_dec : EqDecision jsval.
Proof. solve_decision. Defined.

(** What [await v] evaluates to once [v] has settled. *)
Fixpoint awaited (v : jsval) : jsval :=
  match v with
  | JPromise w => awaited w
  | _ => v
  end.

(** An object is a finite map of its own properties. *)
Abbreviation obj := (gmap string jsval).

(** [o.k]: reading an absent property gives [undefined]. *)
Definition prop (o : obj) (k : string) : jsval := default JUndefined (o !! k).

(** [args[i]] as a callee sees it: a missing argument is [undefined]. *)
Definition arg (args : list jsval) (i : nat) : jsval :=
  default JUndefined (args !! i).

(** A synchronous call returns or throws. *)
Inductive completion (A : Type) : Type :=
| Return (a : A)
| Throw (e : jsval).
#[global] Arguments Return {A} a.
#[global] Arguments Throw {A} e.

(** A promise handed out by a collaborator fulfils or rejects. *)
Inductive settlement (A : Type) : Type :=
| Fulfils (a : A)
| Rejects (e : jsval).
#[global] Arguments Fulfils {A} a.
#[global] Arguments Rejects {A} e.

(** The state of a promise the program holds. *)
Inductive promise : Type :=
| Pending
| Fulfilled (v : jsval)
| Rejected (e : jsval).

#[global] Instance promise_eq_dec : EqDecision promise.
Proof. solve_decision. Defined.

Definition settle (r : settlement jsval) : promise :=
  match r with
  | Fulfils v => Fulfilled v
  | Rejects e => Rejected e
  end.

(** *** Synchronous code: state passing with exceptions *)

Definition M (S A : Type) : Type := S -> S * completion A.

Definition ret {S A} (a : A) : M S A := fun s => (s, Return a).

Definition throw {S A} (e : jsval) : M S A := fun s => (s, Throw e).

Definition bind {S A B} (m : M S A) (k : A -> M S B) : M S B :=
  fun s =>
    match m s with
    | (s', Return a) => k a s'
    | (s', Throw e) => (s', Throw e)
    end.

Definition lift {S A} (c : completion A) : M S A := fun s => (s, c).

Definition gets {S A} (f : S -> A) : M S A := fun s => (s, Return (f s)).

Definition modify {S} (f : S -> S) : M S unit := fun s => (f s, Return tt).

(** [try { m } catch (error) { h error }] *)
Definition try_catch {S A} (m : M S A) (h : jsval -> M S A) : M S A :=
  fun s =>
    match m s with
    | (s', Return a) => (s', Return a)
    | (s', Throw e) => h e s'
    end.

(** [await p] on a promise of a collaborator whose settlement is known:
    the value on fulfilment, a throw at the [await] on rejection. *)
Definition await {S A} (r : settlement A) : M S A :=
  match r with
  | Fulfils a => ret a
  | Rejects e => throw e
  end.

(** [l.map(f)]: the callback runs on the elements in index order. *)
Fixpoint array_map {S A B} (f : A -> M S B) (l : list A) : M S (list B) :=
  match l with
  | [] => ret []
  | x :: l' =>
      bind (f x) (fun y => bind (array_map f l') (fun ys => ret (y :: ys)))
  end.

End JS.

Export JS.

Declare Scope js_scope.
Delimit Scope js_scope with js.
Notation "'let!' x ':=' m 'in' k" := (bind m (fun x => k))
  (at level 10, x name, m at level 100, k at level 200,
   format "'[v' 'let!'  x  ':='  m  'in' '/' k ']'") : js_scope.
Notation "m ';;;' k" := (bind m (fun _ => k))
  (at level 100, k at level 200, right associativity,
   format "'[v' m  ';;;' '/' k ']'") : js_scope.
Open Scope js_scope.

(** ** The evaluation orchestrator *)

Module Evaluator.

(** The four check functions imported by the orchestrator. *)
Inductive check : Type :=
| CheckMetaData
| CheckBodyData
| CheckSocialData
| CheckSchemaData.

#[global] Instance check_eq_dec : EqDecision check.
Proof. solve_decision. Defined.

(** [Object.entries(scanResults)]: the own properties of the fetched
    object in enumeration order, each key once. *)
Abbreviation entries := (list (string * obj)).

(** What the environment does while the call is suspended: it settles
    the promise of one of the two fetches, or the promise returned by the
    [i]-th call of [updateIssueDocument]. *)
Inductive action : Type :=
| ScanSettles (r : settlement entries)
| DupSettles (r : settlement jsval)
| SinkSettles (i : nat) (r : settlement jsval).

(** The history of a run: the calls the orchestrator makes on its
    collaborators, with their arguments as they are at the call, and the
    settlements it observes. *)
Inductive event : Type :=
| EGetScanCollection (domain dateOfScan : jsval)
| EGetDataForDuplicateCheck (domain dateOfScan : jsval)
| ECheck (c : check) (args : list jsval)
| EUpdateIssueDocument (config issues : obj)
| EConsoleError (msg : string) (error : jsval)
| ESettled (a : action).

(** The one [config] object of a run, shared by every per-URL task, and
    the history so far. *)
Record world : Type := World {
  w_config : obj;
  w_trace : list event
}.

(** The synchronous collaborators.  [getConfig] and the four checks live
    in sibling modules; they are taken as given. *)
Class Collaborators : Type := {
  getConfig : string -> string -> obj;
  checkMetaData : jsval -> jsval -> completion jsval;
  checkBodyData : jsval -> completion jsval;
  checkSocialData : jsval -> completion jsval;
  checkSchemaData : jsval -> completion jsval
}.

Section Orchestrator.
Context `{K : Collaborators}.

Definition emit (e : event) : M world unit :=
  modify (fun w => World (w_config w) (w_trace w ++ [e])).

(** [config.k = v] *)
Definition set_config (k : string) (v : jsval) : M world unit :=
  modify (fun w => World (<[k := v]> (w_config w)) (w_trace w)).

(** A call of a check function with the argument list [args]. *)
Definition apply_check (c : check) (args : list jsval) : completion jsval :=
  match c with
  | CheckMetaData => checkMetaData (arg args 0) (arg args 1)
  | CheckBodyData => checkBodyData (arg args 0)
  | CheckSocialData => checkSocialData (arg args 0)
  | CheckSchemaData => checkSchemaData (arg args 0)
  end.

Definition invoke (c : check) (args : list jsval) : M world jsval :=
  emit (ECheck c args) ;;;
  lift (apply_check c args).

(** [updateIssueDocument(config, issues)]: the sink receives the shared
    [config] object as it is now and answers with a pending promise. *)
Definition updateIssueDocument (issues : obj) : M world promise :=
  let! config := gets w_config in
  emit (EUpdateIssueDocument config issues) ;;;
  ret Pending.

(** An [async] function body: a throw becomes a rejected promise, a
    returned promise is adopted. *)
Definition async (body : M world promise) : M world promise :=
  try_catch body (fun e => ret (Rejected e)).

(** Lines 40-52: the callback of [map].  It has no [await], so a call
    runs to its [return] before [map] moves to the next entry. *)
Definition callback (all : jsval) (entry : string * obj) : M world promise :=
  let urlId := entry.1 in
  let urlData := entry.2 in
  async (
    let issues : obj := ∅ in
    set_config "urlId" (JStr urlId) ;;;
    let! r := invoke CheckMetaData [prop urlData "meta"; all] in
    let issues := <["meta" := r]> issues in
    let! r := invoke CheckBodyData [prop urlData "body"] in
    let issues := <["body" := r]> issues in
    let! r := invoke CheckSocialData [prop urlData "social"] in
    let issues := <["social" := r]> issues in
    let! r := invoke CheckSchemaData [prop urlData "schema"] in
    let issues := <["schema" := r]> issues in
    updateIssueDocument issues).

(** Where the call of [initiateEvaluation] stands. *)
Inductive pc : Type :=
| AtGetScanCollection
| AtGetDataForDuplicateCheck (scanResults : entries)
| AtPromiseAll
| Resolved
| RejectedWith (e : jsval).

Record state : Type := State {
  st_world : world;
  st_promises : list promise;
  st_pc : pc
}.

Definition log (e : event) (w : world) : world :=
  World (w_config w) (w_trace w ++ [e]).

(** Lines 55-58: the [catch] block logs and rethrows. *)
Definition catch_block (error : jsval) (w : world) (ps : list promise) : state :=
  State (log (EConsoleError "Error during evaluation:" error) w) ps
        (RejectedWith error).

Definition is_fulfilled (p : promise) : bool :=
  match p with Fulfilled _ => true | _ => false end.

Definition is_rejected (p : promise) : bool :=
  match p with Rejected _ => true | _ => false end.

(** The rejection [Promise.all] meets first among promises that are
    already rejected when it subscribes: the one of least index. *)
Fixpoint first_rejection (ps : list promise) : option jsval :=
  match ps with
  | [] => None
  | Rejected e :: _ => Some e
  | _ :: ps' => first_rejection ps'
  end.

(** Line 54, on arrival: [await Promise.all(promises)]. *)
Definition promise_all (w : world) (ps : list promise) : state :=
  match first_rejection ps with
  | Some e => catch_block e w ps
  | None =>
      if forallb is_fulfilled ps then State w ps Resolved
      else State w ps AtPromiseAll
  end.

(** Lines 25-29: the call runs up to its first [await]. *)
Definition initiateEvaluation (domain dateOfScan : string) : state :=
  let config := getConfig domain dateOfScan in
  State (World config
           [EGetScanCollection (prop config "domain") (prop config "dateOfScan")])
        [] AtGetScanCollection.

(** One settlement, and the code that runs in reaction to it. *)
Definition step (s : state) (a : action) : option state :=
  let w := log (ESettled a) (st_world s) in
  match st_pc s, a with
  | AtGetScanCollection, ScanSettles (Rejects e) =>
      Some (catch_block e w (st_promises s))
  | AtGetScanCollection, ScanSettles (Fulfils scanResults) =>
      let config := w_config w in
      Some (State
              (log (EGetDataForDuplicateCheck
                      (prop config "domain") (prop config "dateOfScan")) w)
              (st_promises s)
              (AtGetDataForDuplicateCheck scanResults))
  | AtGetDataForDuplicateCheck _, DupSettles (Rejects e) =>
      Some (catch_block e w (st_promises s))
  | AtGetDataForDuplicateCheck scanResults, DupSettles (Fulfils all) =>
      match array_map (callback all) scanResults w with
      | (w', Return promises) => Some (promise_all w' promises)
      | (w', Throw e) => Some (catch_block e w' (st_promises s))
      end
  | AtPromiseAll, SinkSettles i r =>
      match st_promises s !! i with
      | Some Pending =>
          let ps := <[i := settle r]> (st_promises s) in
          match r with
          | Rejects e => Some (catch_block e w ps)
          | Fulfils _ =>
              if forallb is_fulfilled ps then Some (State w ps Resolved)
              else Some (State w ps AtPromiseAll)
          end
      | _ => None
      end
  | RejectedWith e, SinkSettles i r =>
      match st_promises s !! i with
      | Some Pending =>
          Some (State w (<[i := settle r]> (st_promises s)) (RejectedWith e))
      | _ => None
      end
  | _, _ => None
  end.

(** A run under a schedule of settlements. *)
Fixpoint run (s : state) (sched : list action) : option state :=
  match sched with
  | [] => Some s
  | a :: sched' =>
      match step s a with
      | Some s' => run s' sched'
      | None => None
      end
  end.

(** Projections of a history. *)
Definition sink_call (e : event) : option (obj * obj) :=
  match e with EUpdateIssueDocument c i => Some (c, i) | _ => None end.

Definition check_call (e : event) : option (check * list jsval) :=
  match e with ECheck c args => Some (c, args) | _ => None end.

Definition sink_calls (t : list event) : list (obj * obj) :=
  omap sink_call t.

Definition check_calls (t : list event) : list (check * list jsval) :=
  omap check_call t.

(** *** Vocabulary of the properties *)

Definition returns {A} (c : completion A) : Prop :=
  match c with Return _ => True | Throw _ => False end.

#[global] Instance returns_dec {A} (c : completion A) : Decision (returns c).
Proof. destruct c; simpl; apply _. Defined.

(** None of the four checks throws on the entry's data. *)
Definition checks_pass (all : jsval) (urlData : obj) : Prop :=
  returns (checkMetaData (prop urlData "meta") all) ∧
  returns (checkBodyData (prop urlData "body")) ∧
  returns (checkSocialData (prop urlData "social")) ∧
  returns (checkSchemaData (prop urlData "schema")).

#[global] Instance checks_pass_dec all urlData : Decision (checks_pass all urlData).
Proof. unfold checks_pass; apply _. Defined.

(** [issues] is the bundle of [urlData]: the four properties, each the
    value its check returned. *)
Definition bundle_of (all : jsval) (urlData issues : obj) : Prop :=
  ∃ m b so sc,
    checkMetaData (prop urlData "meta") all = Return m ∧
    checkBodyData (prop urlData "body") = Return b ∧
    checkSocialData (prop urlData "social") = Return so ∧
    checkSchemaData (prop urlData "schema") = Return sc ∧
    issues = <["schema" := sc]> (<["social" := so]> (<["body" := b]>
               (<["meta" := m]> ∅))).

(** The four invocations the orchestrator owes an entry, in source order. *)
Definition four_calls (all : jsval) (urlData : obj) : list (check * list jsval) :=
  [ (CheckMetaData, [prop urlData "meta"; all]);
    (CheckBodyData, [prop urlData "body"]);
    (CheckSocialData, [prop urlData "social"]);
    (CheckSchemaData, [prop urlData "schema"]) ].

Definition check_event (c : check * list jsval) : event := ECheck c.1 c.2.

(** The events of one per-URL task and the promise it leaves: either the
    four checks return and the bundle is submitted under the entry's own
    [urlId], or a check throws and the task stops there, rejected. *)
Inductive task_block (all : jsval) (cfg : obj) (e : string * obj) :
  list event -> promise -> Prop :=
| block_submitted issues :
    bundle_of all e.2 issues ->
    task_block all cfg e
      ((check_event <$> four_calls all e.2) ++
       [EUpdateIssueDocument (<["urlId" := JStr e.1]> cfg) issues])
      Pending
| block_thrown n c args err :
    four_calls all e.2 !! n = Some (c, args) ->
    Forall (λ c, returns (apply_check c.1 c.2)) (take n (four_calls all e.2)) ->
    apply_check c args = Throw err ->
    task_block all cfg e
      (check_event <$> take (S n) (four_calls all e.2))
      (Rejected err).

(** Per-URL work: a call on a check or on the sink. *)
Definition per_url_work (ev : event) : Prop :=
  match ev with
  | ECheck _ _ | EUpdateIssueDocument _ _ => True
  | _ => False
  end.

(** Property [k] of [issues] holds [r] as the check returned it: when [r]
    is a promise, the promise and not the value it would fulfil with. *)
Definition stored_raw (issues : obj) (k : string) (r : jsval) : Prop :=
  issues !! k = Some r ∧ (∀ v, r = JPromise v → prop issues k ≠ awaited r).

(** Events the environment or the [catch] block adds: no call on a check
    or on the sink. *)
Definition quiet (ev : event) : Prop :=
  match ev with
  | ESettled _ | EConsoleError _ _ => True
  | _ => False
  end.

(** What [Promise.all] and the suspended call agree on while the per-URL
    promises settle. *)
Definition join_inv (s : state) : Prop :=
  match st_pc s with
  | AtPromiseAll =>
      Forall (λ p, ¬ is_rejected p) (st_promises s) ∧
      ¬ Forall is_fulfilled (st_promises s)
  | Resolved => Forall is_fulfilled (st_promises s)
  | RejectedWith e => Rejected e ∈ st_promises s
  | _ => False
  end.

(** The history up to the moment both fetches have fulfilled. *)
Definition fetched (cfg : obj) (es : entries) (all : jsval) : list event :=
  [ EGetScanCollection (prop cfg "domain") (prop cfg "dateOfScan");
    ESettled (ScanSettles (Fulfils es));
    EGetDataForDuplicateCheck (prop cfg "domain") (prop cfg "dateOfScan");
    ESettled (DupSettles (Fulfils all)) ].

(** The environment fulfils, in index order from [i] on, every promise
    of [ps] that is still pending. *)
Fixpoint fulfil_pending (i : nat) (ps : list promise) : list action :=
  match ps with
  | [] => []
  | Pending :: ps' =>
      SinkSettles i (Fulfils JUndefined) :: fulfil_pending (S i) ps'
  | _ :: ps' => fulfil_pending (S i) ps'
  end.

(** The shared [config] after the tasks of [es] have run. *)
Definition config_after (es : entries) (cfg : obj) : obj :=
  foldl (λ c e, <["urlId" := JStr e.1]> c) cfg es.

(** A state past the dispatch of the per-URL tasks of [es]: the history is
    the two fetches, then one block per entry in entry order, then only
    settlements and the [catch] block's log line; the promises are those
    the tasks left, except that pending ones may have settled. *)
Definition dispatched (cfg : obj) (es : entries) (all : jsval) (s : state) : Prop :=
  ∃ (bs : list (list event * promise)) (rest : list event),
    w_trace (st_world s) = fetched cfg es all ++ concat bs.*1 ++ rest ∧
    Forall quiet rest ∧
    Forall2 (λ e b, task_block all cfg e b.1 b.2) es bs ∧
    Forall2 (λ b p, p = b.2 ∨ (b.2 = Pending ∧ p ≠ Pending)) bs (st_promises s) ∧
    w_config (st_world s) = config_after es cfg ∧
    join_inv s.

(** The lines the [catch] block wrote on the console. *)
Definition error_logged (ev : event) : option (string * jsval) :=
  match ev with EConsoleError msg err => Some (msg, err) | _ => None end.

Definition errors_logged (t : list event) : list (string * jsval) :=
  omap error_logged t.

(** The console holds one line, with the call's error, when the call has
    rejected, and none otherwise. *)
Definition logged_once (s : state) : Prop :=
  errors_logged (w_trace (st_world s))
  = match st_pc s with
    | RejectedWith err => [("Error during evaluation:"%string, err)]
    | _ => []
    end.

(** The promise the task of an entry leaves behind: the callback run on
    the entry, its effects on the world put aside. *)
Definition task_promise (all : jsval) (e : string * obj) : completion promise :=
  (callback all e (World ∅ [])).2.

(** The fetches have fulfilled and the tasks have been dispatched. *)
Definition past_dispatch (s : state) : Prop :=
  match st_pc s with
  | AtGetScanCollection | AtGetDataForDuplicateCheck _ => False
  | _ => True
  end.

(** The calls made on the scan data source. *)
Definition fetch_call (ev : event) : option event :=
  match ev with
  | EGetScanCollection _ _ | EGetDataForDuplicateCheck _ _ => Some ev
  | _ => None
  end.

Definition fetch_calls (t : list event) : list event := omap fetch_call t.

(** The settlements of submissions the call has seen, in order: which
    submission, and how it settled. *)
Definition sink_settlement (ev : event) : option (nat * settlement jsval) :=
  match ev with
  | ESettled (SinkSettles i r) => Some (i, r)
  | _ => None
  end.

Definition sink_settlements (t : list event) : list (nat * settlement jsval) :=
  omap sink_settlement t.

(** Every call made on the sink has been answered, and by a fulfilment. *)
Definition every_submission_succeeded (t : list event) : Prop :=
  length (sink_settlements t) = length (sink_calls t) ∧
  Forall (λ x, ∃ v, x.2 = Fulfils v) (sink_settlements t).

(** The promises and the history agree on the submissions: a settlement
    seen is the state of its promise; a fulfilled promise was fulfilled by
    a settlement seen; a rejected one was rejected by a settlement seen or
    belongs to an entry with a throwing check. *)
Definition settlements_recorded (es : entries) (all : jsval) (s : state) : Prop :=
  (∀ i r, (i, r) ∈ sink_settlements (w_trace (st_world s)) →
          st_promises s !! i = Some (settle r)) ∧
  (∀ i v, st_promises s !! i = Some (Fulfilled v) →
          (i, Fulfils v) ∈ sink_settlements (w_trace (st_world s))) ∧
  (∀ i err, st_promises s !! i = Some (Rejected err) →
            (i, Rejects err) ∈ sink_settlements (w_trace (st_world s)) ∨
            ∃ e, es !! i = Some e ∧ ¬ checks_pass all e.2).

(** The call has settled. *)
Definition settled (p : pc) : Prop :=
  match p with
  | Resolved | RejectedWith _ => True
  | _ => False
  end.

(** The environment fulfils the promise of the [i]-th submission. *)
Definition is_fulfilment (a : action) : Prop :=
  match a with
  | SinkSettles _ (Fulfils _) => True
  | _ => False
  end.

End Orchestrator.

End Evaluator.

(** ** The authentication wrappers *)

Module Auth.

(** [userCredential] as the identity provider returns it: its [user]
    property is an object. *)
Record UserCredential : Type := { user : obj }.

(** What the wrappers do to the outside: calls on the identity provider
    and lines on the console. *)
Inductive event : Type :=
| ECreateUserWithEmailAndPassword (auth email password : jsval)
| ESignInWithEmailAndPassword (auth email password : jsval)
| ESendPasswordResetEmail (auth email : jsval)
| EConsoleLog (msg : string) (rest : list jsval).

(** The identity provider ([firebase/auth]) and the [auth] handle of
    [./index.js]: for given arguments a call's promise fulfils or
    rejects. *)
Class Provider : Type := {
  auth : jsval;
  createUserWithEmailAndPassword : jsval -> jsval -> jsval -> settlement UserCredential;
  signInWithEmailAndPassword : jsval -> jsval -> jsval -> settlement UserCredential;
  sendPasswordResetEmail : jsval -> jsval -> settlement unit
}.

Section Wrappers.
Context `{P : Provider}.

Definition emit (e : event) : M (list event) unit :=
  modify (fun t => t ++ [e]).

Definition register (email password : jsval) : M (list event) obj :=
  try_catch
    (let! userCredential :=
       (emit (ECreateUserWithEmailAndPassword auth email password) ;;;
        await (createUserWithEmailAndPassword auth email password)) in
     let user := user userCredential in
     emit (EConsoleLog "Registration successful" []) ;;;
     ret user)
    (fun error =>
       emit (EConsoleLog "Registration failed:" [error]) ;;;
       throw error).

Definition login (email password : jsval) : M (list event) obj :=
  try_catch
    (let! userCredential :=
       (emit (ESignInWithEmailAndPassword auth email password) ;;;
        await (signInWithEmailAndPassword auth email password)) in
     let user := user userCredential in
     emit (EConsoleLog "Login successful" []) ;;;
     ret (<["email" := prop user "email"]> (<["uid" := prop user "uid"]> ∅)))
    (fun error =>
       emit (EConsoleLog "Sign-in failed:" [error]) ;;;
       throw error).

Definition resetPassword (email : jsval) : M (list event) unit :=
  try_catch
    (emit (ESendPasswordResetEmail auth email) ;;;
     await (sendPasswordResetEmail auth email) ;;;
     emit (EConsoleLog "Password reset email sent successfully" []) ;;;
     ret tt)
    (fun error =>
       emit (EConsoleLog "Password reset failed:" [error]) ;;;
       throw error).

End Wrappers.

End Auth.

(** ** Sample collaborators *)

Module Fixtures.
Import Evaluator.

(** Checks in the shape of the real ones: the metadata check is
    asynchronous (it returns a promise), the body check throws on a page
    without a body, the others return a record. *)
Definition sample : Collaborators := {|
  getConfig d t := <["dateOfScan" := JStr t]> (<["domain" := JStr d]> ∅);
  checkMetaData m all := Return (JPromise (JData 10));
  checkBodyData b :=
    match b with JUndefined => Throw (JData 90) | _ => Return (JData 11) end;
  checkSocialData _ := Return (JData 12);
  checkSchemaData _ := Return (JData 13)
|}.

Definition page (n : nat) : obj :=
  <["schema" := JData (n + 3)]> (<["social" := JData (n + 2)]>
    (<["body" := JData (n + 1)]> (<["meta" := JData n]> ∅))).

Definition bodyless (n : nat) : obj :=
  <["schema" := JData (n + 3)]> (<["social" := JData (n + 2)]>
    (<["meta" := JData n]> ∅)).

Definition two_pages : entries := [("u1"%string, page 100); ("u2"%string, page 200)].

Definition three_pages : entries :=
  [("u1"%string, page 100); ("u2"%string, bodyless 200); ("u3"%string, page 300)].

Definition start : state :=
  initiateEvaluation (K := sample) "example.com" "2024-05-01".

(** Both fetches fulfil on three pages, the second without a body; then
    the third submission fulfils and the first rejects. *)
Definition mixed_run : list action :=
  [ ScanSettles (Fulfils three_pages); DupSettles (Fulfils (JData 7));
    SinkSettles 2 (Fulfils JUndefined); SinkSettles 0 (Rejects (JData 500)) ].

(** Both fetches fulfil on two pages and both submissions fulfil, the
    second first. *)
Definition clean_run : list action :=
  [ ScanSettles (Fulfils two_pages); DupSettles (Fulfils (JData 7));
    SinkSettles 1 (Fulfils JUndefined); SinkSettles 0 (Fulfils JUndefined) ].

(** Three pages, all with every slice, and another order of settlement
    than [clean_run]'s. *)
Definition full_pages : entries :=
  [("u1"%string, page 100); ("u2"%string, page 200); ("u3"%string, page 300)].

Definition other_mixed_run : list action :=
  [ ScanSettles (Fulfils three_pages); DupSettles (Fulfils (JData 7));
    SinkSettles 0 (Fulfils (JData 1)) ].

(** Both fetches fulfil on three pages, the second without a body; both
    submissions that were made, for the first and the third page, then
    fulfil. *)
Definition throwing_check_run : list action :=
  [ ScanSettles (Fulfils three_pages); DupSettles (Fulfils (JData 7));
    SinkSettles 0 (Fulfils JUndefined); SinkSettles 2 (Fulfils JUndefined) ].

(** A page that came back from the scan with no slice at all. *)
Definition blank_page_run : list action :=
  [ ScanSettles (Fulfils [("u9"%string, ∅)]); DupSettles (Fulfils (JData 7)) ].

(** A provider whose user object carries neither [uid] nor [email]. *)
Definition provider_sparse : Auth.Provider := {|
  Auth.auth := JData 0;
  Auth.createUserWithEmailAndPassword _ _ _ := Fulfils {| Auth.user := ∅ |};
  Auth.signInWithEmailAndPassword _ _ _ :=
    Fulfils {| Auth.user := <["displayName" := JStr "Ann"]> ∅ |};
  Auth.sendPasswordResetEmail _ _ := Fulfils tt
|}.

Definition provider_up : Auth.Provider := {|
  Auth.auth := JData 0;
  Auth.createUserWithEmailAndPassword _ email _ :=
    Fulfils {| Auth.user := <["email" := email]> (<["uid" := JStr "uid-1"]> ∅) |};
  Auth.signInWithEmailAndPassword _ email _ :=
    Fulfils {| Auth.user := <["displayName" := JStr "Ann"]>
                 (<["email" := email]> (<["uid" := JStr "uid-1"]> ∅)) |};
  Auth.sendPasswordResetEmail _ _ := Fulfils tt
|}.

Definition provider_down : Auth.Provider := {|
  Auth.auth := JData 0;
  Auth.createUserWithEmailAndPassword _ _ _ := Rejects (JData 401);
  Auth.signInWithEmailAndPassword _ _ _ := Rejects (JData 402);
  Auth.sendPasswordResetEmail _ _ := Rejects (JData 403)
|}.

End Fixtures.

(** * Properties of the orchestrator *)

Section EvaluatorFacts.
Import Evaluator.
Context `{K : Collaborators}.

Implicit Types (w : world) (es : entries) (ps : list promise) (s : state).
Implicit Types (t : list event) (e : string * obj) (all : jsval) (cfg : obj).

(** *** One per-URL task *)

Ltac run_callback :=
  unfold callback, async, try_catch, invoke, updateIssueDocument, emit,
    set_config, bind, modify, lift, gets, ret; simpl.

Lemma callback_block all e w :
  ∃ t p,
    callback all e w
    = (World (<["urlId" := JStr e.1]> (w_config w)) (w_trace w ++ t), Return p)
    ∧ task_block all (w_config w) e t p.
Proof.
  run_callback. unfold arg; simpl.
  destruct (checkMetaData (prop e.2 "meta") all) as [m|err] eqn:Hm.
  2:{ eexists _, _; split; [reflexivity|].
      by eapply (block_thrown all _ e 0); [reflexivity|constructor|]. }
  destruct (checkBodyData (prop e.2 "body")) as [b|err] eqn:Hb.
  2:{ eexists _, _; split; [by rewrite <- !app_assoc|].
      eapply (block_thrown all _ e 1); [reflexivity| |done].
      repeat constructor; simpl; unfold arg; simpl; by rewrite Hm. }
  destruct (checkSocialData (prop e.2 "social")) as [so|err] eqn:Hso.
  2:{ eexists _, _; split; [by rewrite <- !app_assoc|].
      eapply (block_thrown all _ e 2); [reflexivity| |done].
      repeat constructor; simpl; unfold arg; simpl; by rewrite ?Hm, ?Hb. }
  destruct (checkSchemaData (prop e.2 "schema")) as [sc|err] eqn:Hsc.
  2:{ eexists _, _; split; [by rewrite <- !app_assoc|].
      eapply (block_thrown all _ e 3); [reflexivity| |done].
      repeat constructor; simpl; unfold arg; simpl; by rewrite ?Hm, ?Hb, ?Hso. }
  eexists _, _; split; [by rewrite <- !app_assoc|].
  apply (block_submitted all _ e). by exists m, b, so, sc.
Qed.

Lemma task_block_config all cfg v e t p :
  task_block all (<["urlId" := v]> cfg) e t p → task_block all cfg e t p.
Proof.
  destruct 1 as [issues Hb|n c args err Hn Hpre Herr].
  - rewrite insert_insert_eq. by constructor.
  - by econstructor.
Qed.

(** *** The dispatch: [Object.entries(scanResults).map(callback)] *)

Lemma dispatch_blocks all es w :
  ∃ bs : list (list event * promise),
    array_map (callback all) es w
    = (World (config_after es (w_config w)) (w_trace w ++ concat bs.*1),
       Return bs.*2)
    ∧ Forall2 (λ e b, task_block all (w_config w) e b.1 b.2) es bs.
Proof.
  revert w. induction es as [|e es IH]; intros w.
  - exists []. simpl. split; [|constructor].
    unfold ret. destruct w; simpl. by rewrite app_nil_r.
  - destruct (callback_block all e w) as (t & p & Hcb & Hblk).
    destruct (IH (World (<["urlId" := JStr e.1]> (w_config w)) (w_trace w ++ t)))
      as (bs & Hmap & Hbs).
    exists ((t, p) :: bs). split.
    + simpl. unfold bind at 1. rewrite Hcb. unfold bind at 1. rewrite Hmap.
      unfold ret; simpl. by rewrite <- app_assoc.
    + constructor; [done|].
      eapply Forall2_impl; [exact Hbs|]. intros ??. apply task_block_config.
Qed.

(** *** The join: [await Promise.all(promises)] *)

Lemma first_rejection_Some ps err :
  first_rejection ps = Some err → Rejected err ∈ ps.
Proof.
  induction ps as [|[|v|e'] ps IH]; simpl; intros H; try done.
  - right. auto.
  - right. auto.
  - injection H as ->. left.
Qed.

Lemma first_rejection_None ps :
  first_rejection ps = None → Forall (λ p, ¬ is_rejected p) ps.
Proof.
  induction ps as [|[|v|e'] ps IH]; simpl; intros H; try done;
    constructor; auto.
Qed.

Lemma promise_all_join w ps : join_inv (promise_all w ps).
Proof.
  unfold promise_all, join_inv.
  destruct (first_rejection ps) as [err|] eqn:Hrej; simpl.
  - by apply first_rejection_Some.
  - destruct (forallb is_fulfilled ps) eqn:Hall; simpl.
    + apply forallb_True. by rewrite Hall.
    + split; [by apply first_rejection_None|].
      rewrite <- forallb_True, Hall. auto.
Qed.

Lemma promise_all_world w ps :
  st_promises (promise_all w ps) = ps ∧
  w_config (st_world (promise_all w ps)) = w_config w ∧
  ∃ rest, w_trace (st_world (promise_all w ps)) = w_trace w ++ rest ∧
          Forall quiet rest.
Proof.
  unfold promise_all.
  destruct (first_rejection ps); simpl.
  - do 2 (split; [done|]). eexists; split; [done|]. by repeat constructor.
  - destruct (forallb is_fulfilled ps); simpl;
      (do 2 (split; [done|])); exists []; by rewrite app_nil_r.
Qed.

Lemma Forall2_insert_right {A B} (P : A → B → Prop) l k i y :
  Forall2 P l k → (∀ x, l !! i = Some x → P x y) → Forall2 P l (<[i := y]> k).
Proof.
  intros Hl. revert i.
  induction Hl as [|x z l k Hxz Hl IH]; intros [|i] H; simpl; constructor; auto.
Qed.

(** A settlement of one per-URL promise touches that promise only, adds
    nothing but quiet events, and keeps the join consistent. *)
Lemma step_dispatched cfg es all s a s' :
  dispatched cfg es all s → step s a = Some s' → dispatched cfg es all s'.
Proof.
  intros (bs & rest & Htr & Hq & Hbs & Hps & Hcfg & Hj) Hstep.
  unfold step in Hstep. unfold join_inv in Hj.
  destruct (st_pc s) as [| | | |err] eqn:Hpc; try done;
    destruct a as [r|r|i r]; try done;
    destruct (st_promises s !! i) as [[| |]|] eqn:Hi; try done.
  - (* at the join *)
    assert (Hps' : Forall2 (λ b p, p = b.2 ∨ b.2 = Pending ∧ p ≠ Pending) bs
                     (<[i := settle r]> (st_promises s))).
    { apply Forall2_insert_right; [done|]. intros b Hb.
      destruct (Forall2_lookup_lr _ _ _ _ _ _ Hps Hb Hi) as [Heq|[? ?]]; [|done].
      right. split; [done|]. by destruct r. }
    destruct Hj as [Hnr Hnf].
    destruct r as [v|err]; simpl in Hstep.
    + destruct (forallb is_fulfilled (<[i:=Fulfilled v]> (st_promises s))) eqn:Hall;
        injection Hstep as <-;
        exists bs, (rest ++ [ESettled (SinkSettles i (Fulfils v))]); simpl;
        (split; [by rewrite Htr, <- !app_assoc|]);
        (split; [apply Forall_app; split; [done|by repeat constructor]|]);
        (do 3 (split; [done|])); unfold join_inv; simpl.
      * apply forallb_True. by rewrite Hall.
      * split.
        -- apply Forall_insert; [done|]. simpl. auto.
        -- rewrite <- forallb_True, Hall. auto.
    + injection Hstep as <-.
      exists bs, (rest ++ [ESettled (SinkSettles i (Rejects err));
                           EConsoleError "Error during evaluation:" err]); simpl.
      split; [by rewrite Htr, <- !app_assoc|].
      split; [apply Forall_app; split; [done|by repeat constructor]|].
      do 3 (split; [done|]). unfold join_inv; simpl.
      apply list_elem_of_lookup. exists i.
      apply list_lookup_insert_eq. by eapply lookup_lt_Some.
  - (* after the call has rejected *)
    injection Hstep as <-.
    exists bs, (rest ++ [ESettled (SinkSettles i r)]); simpl.
    split; [by rewrite Htr, <- !app_assoc|].
    split; [apply Forall_app; split; [done|by repeat constructor]|].
    split; [done|]. split.
    { apply Forall2_insert_right; [done|]. intros b Hb.
      destruct (Forall2_lookup_lr _ _ _ _ _ _ Hps Hb Hi) as [Heq|[? ?]]; [|done].
      right. split; [done|]. by destruct r. }
    split; [done|]. unfold join_inv; simpl.
    apply list_elem_of_lookup in Hj as [j Hj].
    apply list_elem_of_lookup. exists j.
    rewrite list_lookup_insert_ne; [done|]. intros ->. congruence.
Qed.

Lemma run_dispatched_from cfg es all sched s s' :
  dispatched cfg es all s → run s sched = Some s' → dispatched cfg es all s'.
Proof.
  revert s. induction sched as [|a sched IH]; simpl; intros s Hd Hrun.
  - by injection Hrun as <-.
  - destruct (step s a) as [s1|] eqn:Hstep; [|done].
    eapply IH; [|exact Hrun]. by eapply step_dispatched.
Qed.

(** Every run in which both fetches fulfil. *)
Lemma run_dispatched domain dateOfScan es all sched s :
  run (initiateEvaluation domain dateOfScan)
      (ScanSettles (Fulfils es) :: DupSettles (Fulfils all) :: sched) = Some s →
  dispatched (getConfig domain dateOfScan) es all s.
Proof.
  simpl. unfold step; simpl. unfold log; simpl.
  set (cfg := getConfig domain dateOfScan).
  set (w := World cfg _).
  destruct (dispatch_blocks all es w) as (bs & Hmap & Hbs).
  rewrite Hmap. apply run_dispatched_from.
  destruct (promise_all_world (World (config_after es (w_config w))
                                 (w_trace w ++ concat bs.*1)) bs.*2)
    as (Hps & Hcfg & rest & Htr & Hq).
  exists bs, rest. rewrite Htr, Hps, Hcfg. subst w; simpl.
  split; [by rewrite <- ?app_assoc|]. split; [done|]. split; [done|].
  split; [|split; [done|apply promise_all_join]].
  apply Forall2_fmap_r, Forall_Forall2_diag, Forall_forall. auto.
Qed.

(** *** What the blocks of a history say about calls *)

Lemma sink_calls_app t1 t2 : sink_calls (t1 ++ t2) = sink_calls t1 ++ sink_calls t2.
Proof. apply omap_app. Qed.

Lemma check_calls_app t1 t2 :
  check_calls (t1 ++ t2) = check_calls t1 ++ check_calls t2.
Proof. apply omap_app. Qed.

Lemma quiet_no_calls t : Forall quiet t → sink_calls t = [] ∧ check_calls t = [].
Proof.
  induction 1 as [|ev t Hev _ [IH1 IH2]]; [done|].
  destruct ev; try done.
Qed.

Lemma bundle_checks_pass all d issues : bundle_of all d issues → checks_pass all d.
Proof.
  intros (m & b & so & sc & Hm & Hb & Hso & Hsc & _).
  unfold checks_pass. by rewrite Hm, Hb, Hso, Hsc.
Qed.

Lemma thrown_checks_fail all d n c args err :
  four_calls all d !! n = Some (c, args) →
  apply_check c args = Throw err →
  ¬ checks_pass all d.
Proof.
  intros Hn Herr (Hm & Hb & Hso & Hsc).
  do 4 (destruct n as [|n];
        [injection Hn as <- <-; unfold apply_check, arg in Herr; simpl in Herr;
         by rewrite Herr in *|simpl in Hn]).
  done.
Qed.

Lemma four_calls_length all d n c args :
  four_calls all d !! n = Some (c, args) → n < 4.
Proof. intros H. by apply lookup_lt_Some in H. Qed.

(** A block holds one sink call, under the entry's own [urlId], exactly
    when the entry's checks pass; otherwise it holds none. *)
Lemma block_sink_calls all cfg e t p :
  task_block all cfg e t p →
  (checks_pass all e.2 ∧ p = Pending ∧
   ∃ issues, bundle_of all e.2 issues ∧
             sink_calls t = [(<["urlId" := JStr e.1]> cfg, issues)])
  ∨ (¬ checks_pass all e.2 ∧ (∃ err, p = Rejected err) ∧ sink_calls t = []).
Proof.
  destruct 1 as [issues Hb|n c args err Hn Hpre Herr].
  - left. split; [by eapply bundle_checks_pass|]. split; [done|].
    by exists issues.
  - right. split; [by eapply thrown_checks_fail|]. split; [by exists err|].
    apply four_calls_length in Hn.
    by do 4 (destruct n as [|n]; [done|]); lia.
Qed.

Lemma block_check_calls all cfg e t p :
  task_block all cfg e t p →
  check_calls t `prefix_of` four_calls all e.2 ∧
  check_calls t ≠ [] ∧
  (checks_pass all e.2 → check_calls t = four_calls all e.2).
Proof.
  destruct 1 as [issues Hb|n c args err Hn Hpre Herr].
  - by split; [|split].
  - assert (Hcc : check_calls (check_event <$> take (S n) (four_calls all e.2))
                  = take (S n) (four_calls all e.2)).
    { generalize (take (S n) (four_calls all e.2)). intros l.
      induction l as [|[c' a'] l IH]; [done|]. simpl. by f_equal. }
    rewrite Hcc. split; [apply prefix_take|]. split.
    + done.
    + intros Hpass. by destruct (thrown_checks_fail _ _ _ _ _ _ Hn Herr).
Qed.

Lemma blocks_sink_calls all cfg es (bs : list (list event * promise)) :
  Forall2 (λ e b, task_block all cfg e b.1 b.2) es bs →
  Forall2 (λ e c, c.1 = <["urlId" := JStr e.1]> cfg ∧ bundle_of all e.2 c.2)
          (filter (λ e, checks_pass all e.2) es)
          (sink_calls (concat bs.*1)).
Proof.
  induction 1 as [|e [t p] es bs Hblk _ IH]; simpl; [constructor|].
  rewrite sink_calls_app, filter_cons. simpl in Hblk.
  destruct (block_sink_calls _ _ _ _ _ Hblk)
    as [(Hpass & _ & issues & Hiss & ->)|(Hfail & _ & ->)];
    (destruct (decide _); [|]); try done.
  simpl. by constructor.
Qed.

Lemma dispatched_sink_calls cfg es all s :
  dispatched cfg es all s →
  Forall2 (λ e c, c.1 = <["urlId" := JStr e.1]> cfg ∧ bundle_of all e.2 c.2)
          (filter (λ e, checks_pass all e.2) es)
          (sink_calls (w_trace (st_world s))).
Proof.
  intros (bs & rest & -> & Hq & Hbs & _).
  rewrite !sink_calls_app.
  destruct (quiet_no_calls _ Hq) as [-> _]. simpl. rewrite app_nil_r.
  by apply blocks_sink_calls.
Qed.

(** C1. Whatever the order in which the per-URL promises settle, the
    sink is called once for each entry whose checks pass, in entry order,
    and at each call the [urlId] property of the [config] object it
    receives is the key of the entry whose bundle it receives. *)
Theorem sink_config_carries_own_urlId domain dateOfScan es all sched s :
  run (initiateEvaluation domain dateOfScan)
      (ScanSettles (Fulfils es) :: DupSettles (Fulfils all) :: sched) = Some s →
  Forall2 (λ e c, prop c.1 "urlId" = JStr e.1 ∧ bundle_of all e.2 c.2)
          (filter (λ e, checks_pass all e.2) es)
          (sink_calls (w_trace (st_world s))).
Proof.
  intros Hd%run_dispatched.
  eapply Forall2_impl; [by apply dispatched_sink_calls|].
  intros e c [-> Hb]. split; [|done].
  unfold prop. by rewrite lookup_insert_eq.
Qed.

(** *** The shape of every run *)

Lemma rejected_without_promises_stuck w err a :
  step (State w [] (RejectedWith err)) a = None.
Proof. by destruct a as [r|r|i r]. Qed.

Lemma run_stuck s sched s' :
  (∀ a, step s a = None) → run s sched = Some s' → sched = [] ∧ s' = s.
Proof.
  intros Hstuck. destruct sched as [|a sched]; simpl.
  - by intros [= <-].
  - by rewrite Hstuck.
Qed.

(** A run is in one of five situations: suspended at the first fetch;
    rejected by the first fetch; suspended at the second fetch; rejected
    by the second fetch; or past the dispatch of the per-URL tasks. *)
Lemma run_shape domain dateOfScan sched s :
  run (initiateEvaluation domain dateOfScan) sched = Some s →
  let cfg := getConfig domain dateOfScan in
  let scan := EGetScanCollection (prop cfg "domain") (prop cfg "dateOfScan") in
  let dup := EGetDataForDuplicateCheck (prop cfg "domain") (prop cfg "dateOfScan") in
  (sched = [] ∧ s = State (World cfg [scan]) [] AtGetScanCollection)
  ∨ (∃ err, sched = [ScanSettles (Rejects err)] ∧
       s = State (World cfg [scan; ESettled (ScanSettles (Rejects err));
                             EConsoleError "Error during evaluation:" err])
                 [] (RejectedWith err))
  ∨ (∃ es, sched = [ScanSettles (Fulfils es)] ∧
       s = State (World cfg [scan; ESettled (ScanSettles (Fulfils es)); dup])
                 [] (AtGetDataForDuplicateCheck es))
  ∨ (∃ es err, sched = [ScanSettles (Fulfils es); DupSettles (Rejects err)] ∧
       s = State (World cfg [scan; ESettled (ScanSettles (Fulfils es)); dup;
                             ESettled (DupSettles (Rejects err));
                             EConsoleError "Error during evaluation:" err])
                 [] (RejectedWith err))
  ∨ (∃ es all sched',
       sched = ScanSettles (Fulfils es) :: DupSettles (Fulfils all) :: sched' ∧
       dispatched cfg es all s).
Proof.
  intros Hrun cfg scan dup.
  destruct sched as [|a sched]; [left; by injection Hrun as <-|right].
  destruct a as [[es|err]|r|i r]; try done.
  2:{ left. exists err. simpl in Hrun.
      apply run_stuck in Hrun as [-> ->];
        [done|apply rejected_without_promises_stuck]. }
  right. destruct sched as [|a sched]; [left; exists es; by injection Hrun as <-|right].
  destruct a as [r|[all|err]|i r]; try done.
  2:{ left. exists es, err. simpl in Hrun.
      apply run_stuck in Hrun as [-> ->];
        [done|apply rejected_without_promises_stuck]. }
  right. exists es, all, sched. split; [done|]. by eapply run_dispatched.
Qed.

Lemma dispatched_promises cfg es all s :
  dispatched cfg es all s →
  Forall2 (λ e p, (is_fulfilled p → checks_pass all e.2) ∧
                  (¬ checks_pass all e.2 → is_rejected p))
          es (st_promises s).
Proof.
  intros (bs & rest & _ & _ & Hbs & Hps & _).
  eapply Forall2_trans; [|exact Hbs|exact Hps].
  intros e [t p0] p Hblk Hp. simpl in *.
  destruct (block_sink_calls _ _ _ _ _ Hblk)
    as [(Hpass & -> & _)|(Hfail & [err ->] & _)].
  - by split.
  - destruct Hp as [->|[? _]]; [|done]. by split.
Qed.

Lemma bundle_dom all d issues :
  bundle_of all d issues →
  dom issues = ({["meta"; "body"; "social"; "schema"]} : gset string).
Proof.
  intros (m & b & so & sc & _ & _ & _ & _ & ->).
  rewrite !dom_insert_L, dom_empty_L. set_solver.
Qed.

(** C2. In every run that resolves, both fetches fulfilled and the sink
    was called exactly once per entry of the fetched result set, in entry
    order: as many calls as entries, the [urlId]s submitted are the keys
    (so none twice, the keys of an object being distinct), and every
    bundle submitted has exactly the own properties [meta], [body],
    [social] and [schema]. *)
Theorem resolved_run_submits_each_urlId_once domain dateOfScan sched s :
  run (initiateEvaluation domain dateOfScan) sched = Some s →
  st_pc s = Resolved →
  ∃ es all sched',
    sched = ScanSettles (Fulfils es) :: DupSettles (Fulfils all) :: sched' ∧
    let calls := sink_calls (w_trace (st_world s)) in
    length calls = length es ∧
    (λ c, prop c.1 "urlId") <$> calls = (λ e, JStr e.1) <$> es ∧
    (NoDup es.*1 → NoDup ((λ c, prop c.1 "urlId") <$> calls)) ∧
    Forall2 (λ e c, bundle_of all e.2 c.2) es calls ∧
    Forall (λ c, dom c.2 = ({["meta"; "body"; "social"; "schema"]} : gset string))
           calls.
Proof.
  intros Hrun Hpc.
  destruct (run_shape _ _ _ _ Hrun)
    as [[_ ->]|[(err & _ & ->)|[(es & _ & ->)|[(es & err & _ & ->)
       |(es & all & sched' & -> & Hd)]]]]; try done.
  exists es, all, sched'. split; [done|].
  pose proof (dispatched_sink_calls _ _ _ _ Hd) as Hcalls.
  assert (Hall : filter (λ e, checks_pass all e.2) es = es).
  { pose proof (dispatched_promises _ _ _ _ Hd) as Hps.
    destruct Hd as (_ & _ & _ & _ & _ & _ & _ & Hj).
    unfold join_inv in Hj. rewrite Hpc in Hj.
    clear -Hps Hj. induction Hps as [|e p es ps [Hp _] _ IH]; [done|].
    apply Forall_cons in Hj as [Hf Hj].
    rewrite filter_cons_True by auto. f_equal. auto. }
  rewrite Hall in Hcalls. simpl.
  assert (Hids : (λ c : obj * obj, prop c.1 "urlId")
                   <$> sink_calls (w_trace (st_world s))
                 = (λ e, JStr e.1) <$> es).
  { clear -Hcalls. induction Hcalls as [|e c es cs [Hid _] _ IH]; [done|].
    rewrite !fmap_cons. f_equal; [|done].
    rewrite Hid. unfold prop. by rewrite lookup_insert_eq. }
  split; [symmetry; by eapply Forall2_length|].
  split; [done|]. split; [|split].
  - intros Hnd. rewrite Hids.
    change (λ e : string * obj, JStr e.1) with (JStr ∘ (fst : string * obj → string)).
    rewrite list_fmap_compose.
    apply NoDup_fmap_2_strong; [|done]. by intros ?? _ _ [=].
  - eapply Forall2_impl; [exact Hcalls|]. by intros ?? [_ ?].
  - eapply Forall2_Forall_r; [exact Hcalls|].
    apply Forall_forall. intros e _ c [_ Hb]. by eapply bundle_dom.
Qed.

(** C3. When the promise of [getScanCollection] rejects, the call
    rejects with that very error, the history holds no call on a check and
    no call on the sink, and nothing can happen afterwards; likewise when
    the promise of [getDataForDuplicateCheck] rejects. *)
Theorem fetch_failure_aborts_before_any_work domain dateOfScan err :
  let s0 := initiateEvaluation domain dateOfScan in
  (∃ s, step s0 (ScanSettles (Rejects err)) = Some s ∧
        st_pc s = RejectedWith err ∧
        sink_calls (w_trace (st_world s)) = [] ∧
        check_calls (w_trace (st_world s)) = [] ∧
        ∀ a, step s a = None) ∧
  (∀ es, ∃ s1 s,
        step s0 (ScanSettles (Fulfils es)) = Some s1 ∧
        step s1 (DupSettles (Rejects err)) = Some s ∧
        st_pc s = RejectedWith err ∧
        sink_calls (w_trace (st_world s)) = [] ∧
        check_calls (w_trace (st_world s)) = [] ∧
        ∀ a, step s a = None).
Proof.
  split.
  - eexists. split; [reflexivity|]. do 3 (split; [done|]).
    apply rejected_without_promises_stuck.
  - intros es. eexists _, _. do 2 (split; [reflexivity|]). do 3 (split; [done|]).
    apply rejected_without_promises_stuck.
Qed.

(** C9. On an empty result set the call resolves; its history is the two
    fetches and their settlements, so both retrievals were made and no
    check and no sink call was; nothing can happen afterwards. *)
Theorem empty_result_set_resolves domain dateOfScan all :
  let cfg := getConfig domain dateOfScan in
  ∃ s, run (initiateEvaluation domain dateOfScan)
           [ScanSettles (Fulfils []); DupSettles (Fulfils all)] = Some s ∧
       st_pc s = Resolved ∧
       w_trace (st_world s)
       = [ EGetScanCollection (prop cfg "domain") (prop cfg "dateOfScan");
           ESettled (ScanSettles (Fulfils []));
           EGetDataForDuplicateCheck (prop cfg "domain") (prop cfg "dateOfScan");
           ESettled (DupSettles (Fulfils all)) ] ∧
       sink_calls (w_trace (st_world s)) = [] ∧
       check_calls (w_trace (st_world s)) = [] ∧
       ∀ a, step s a = None.
Proof.
  eexists. split; [reflexivity|]. do 4 (split; [done|]).
  by intros [r|r|i r].
Qed.

(** C4. The calls on the checks, in the order made, fall into one group
    per entry, in entry order.  The group of [(urlId, urlData)] is an
    initial part of: the metadata check on [urlData.meta] and the
    duplicate context; the body check on [urlData.body] alone; the social
    check on [urlData.social] alone; the schema check on [urlData.schema]
    alone.  It stops early only at a check that throws, and is all four
    when none does. *)
Theorem checks_receive_their_own_slices domain dateOfScan es all sched s :
  run (initiateEvaluation domain dateOfScan)
      (ScanSettles (Fulfils es) :: DupSettles (Fulfils all) :: sched) = Some s →
  let owed (urlData : obj) :=
    [ (CheckMetaData, [prop urlData "meta"; all]);
      (CheckBodyData, [prop urlData "body"]);
      (CheckSocialData, [prop urlData "social"]);
      (CheckSchemaData, [prop urlData "schema"]) ] in
  ∃ groups, check_calls (w_trace (st_world s)) = concat groups ∧
    Forall2 (λ e g, g `prefix_of` owed e.2 ∧ g ≠ [] ∧
                    (checks_pass all e.2 → g = owed e.2)) es groups.
Proof.
  intros (bs & rest & -> & Hq & Hbs & _)%run_dispatched owed.
  rewrite !check_calls_app.
  destruct (quiet_no_calls _ Hq) as [_ ->]. simpl. rewrite app_nil_r.
  clear -Hbs. induction Hbs as [|e [t p] es bs Hblk _ (groups & Hgs & IH)].
  - by exists [].
  - exists (check_calls t :: groups).
    change (concat ((t, p) :: bs).*1) with (t ++ concat bs.*1).
    rewrite check_calls_app, Hgs.
    split; [done|]. constructor; [|done]. by eapply block_check_calls.
Qed.

Lemma fulfilled_not_rejected p : is_fulfilled p → ¬ is_rejected p.
Proof. destruct p; simpl; tauto. Qed.

Lemma dispatched_pc cfg es all s :
  dispatched cfg es all s →
  (st_pc s = Resolved ↔ Forall is_fulfilled (st_promises s)) ∧
  ((∃ err, st_pc s = RejectedWith err) ↔ Exists is_rejected (st_promises s)) ∧
  (∀ err, st_pc s = RejectedWith err → Rejected err ∈ st_promises s).
Proof.
  intros (_ & _ & _ & _ & _ & _ & _ & Hj). unfold join_inv in Hj.
  destruct (st_pc s) as [| |  | |err] eqn:Hpc; try done.
  - destruct Hj as [Hnr Hnf]. split; [split; [done|by intros ?%Hnf]|]. split.
    + split; [by intros [? ?]|]. intros Hex.
      apply Exists_exists in Hex as (p & Hp & Hrej).
      by destruct (proj1 (Forall_forall _ _) Hnr p Hp).
    + by intros.
  - split; [done|]. split.
    + split; [by intros [? ?]|]. intros Hex.
      apply Exists_exists in Hex as (p & Hp & Hrej).
      destruct (fulfilled_not_rejected p); [|done].
      by apply (proj1 (Forall_forall _ _) Hj p Hp).
    + by intros.
  - split.
    + split; [done|]. intros Hall.
      by pose proof (proj1 (Forall_forall _ _) Hall _ Hj).
    + split.
      * split; [|by exists err]. intros _. apply Exists_exists.
        by exists (Rejected err).
      * by intros ? [= <-].
Qed.

Lemma dispatched_settle cfg es all s i r :
  dispatched cfg es all s →
  st_promises s !! i = Some Pending →
  ∃ s', step s (SinkSettles i r) = Some s' ∧
        st_promises s' = <[i := settle r]> (st_promises s) ∧
        sink_calls (w_trace (st_world s')) = sink_calls (w_trace (st_world s)) ∧
        check_calls (w_trace (st_world s')) = check_calls (w_trace (st_world s)) ∧
        (∀ err, st_pc s = AtPromiseAll → r = Rejects err →
                st_pc s' = RejectedWith err) ∧
        (∀ err, st_pc s = RejectedWith err → st_pc s' = RejectedWith err).
Proof.
  intros (_ & _ & _ & _ & _ & _ & _ & Hj) Hi. unfold join_inv in Hj.
  unfold step. rewrite Hi.
  destruct (st_pc s) as [| |  | |err0] eqn:Hpc; try done.
  - destruct r as [v|err]; simpl.
    + destruct (forallb is_fulfilled _); eexists; (split; [reflexivity|]); simpl;
        rewrite sink_calls_app, check_calls_app, !app_nil_r;
        by repeat split.
    + eexists; split; [reflexivity|]; simpl.
      rewrite !sink_calls_app, !check_calls_app, !app_nil_r.
      repeat split; try done. by intros ? _ [= <-].
  - by pose proof (proj1 (Forall_forall _ _) Hj _
                     (proj2 (list_elem_of_lookup _ _) (ex_intro _ i Hi))).
  - eexists; split; [reflexivity|]; simpl.
    rewrite sink_calls_app, check_calls_app, !app_nil_r.
    by repeat split.
Qed.

(** Looking for an event at position [i] of a history that is given
    outright and does not hold it. *)
Ltac walk_history i :=
  repeat first
    [ done
    | match goal with
      | H : _ !! i = Some _ |- _ =>
          destruct i as [|i]; simpl in H; [try (injection H as <-)|]
      end ].

(** C6. In every history the first event is the call of
    [getScanCollection]; a call of [getDataForDuplicateCheck] comes only
    after the scan fetch has fulfilled; and any call on a check or on the
    sink comes after, in this order, the fulfilment of the scan fetch, the
    call of the duplicate fetch and the fulfilment of the duplicate
    fetch. *)
Theorem fetches_precede_all_work domain dateOfScan sched s :
  run (initiateEvaluation domain dateOfScan) sched = Some s →
  let t := w_trace (st_world s) in
  (∃ dm dt, t !! 0 = Some (EGetScanCollection dm dt)) ∧
  (∀ i dm dt, t !! i = Some (EGetDataForDuplicateCheck dm dt) →
     ∃ j es, 0 < j < i ∧ t !! j = Some (ESettled (ScanSettles (Fulfils es)))) ∧
  (∀ i ev, t !! i = Some ev → per_url_work ev →
     ∃ j c k es all dm dt,
       0 < j < c ∧ c < k < i ∧
       t !! j = Some (ESettled (ScanSettles (Fulfils es))) ∧
       t !! c = Some (EGetDataForDuplicateCheck dm dt) ∧
       t !! k = Some (ESettled (DupSettles (Fulfils all)))).
Proof.
  intros Hrun t.
  destruct (run_shape _ _ _ _ Hrun)
    as [[_ ->]|[(err & _ & ->)|[(es & _ & ->)|[(es & err & _ & ->)
       |(es & all & sched' & _ & Hd)]]]]; subst t; simpl.
  - split; [by eexists _, _|]. split; intros i; intros; by walk_history i.
  - split; [by eexists _, _|]. split; intros i; intros; by walk_history i.
  - split; [by eexists _, _|]. split.
    + intros i dm dt Hi. do 2 (destruct i as [|i]; [done|]).
      exists 1, es. split; [lia|done].
    + intros i; intros; by walk_history i.
  - split; [by eexists _, _|]. split.
    + intros i dm dt Hi. do 2 (destruct i as [|i]; [done|]).
      exists 1, es. split; [lia|done].
    + intros i; intros; by walk_history i.
  - destruct Hd as (bs & rest & -> & _). simpl.
    split; [by eexists _, _|]. split.
    + intros i dm dt Hi. do 2 (destruct i as [|i]; [done|]).
      exists 1, es. split; [lia|done].
    + intros i ev Hi Hw.
      do 4 (destruct i as [|i]; [by injection Hi as <-|]).
      exists 1, 2, 3, es, all. eexists _, _. repeat split; try lia; done.
Qed.

Lemma awaited_not_promise (v v0 : jsval) : awaited v ≠ JPromise v0.
Proof. induction v; simpl; congruence. Qed.

Lemma bundle_stored_raw m b so sc :
  let issues : obj :=
    <["schema" := sc]> (<["social" := so]> (<["body" := b]> (<["meta" := m]> ∅))) in
  stored_raw issues "meta" m ∧ stored_raw issues "body" b ∧
  stored_raw issues "social" so ∧ stored_raw issues "schema" sc.
Proof.
  intros issues. unfold stored_raw, prop, issues.
  repeat split; simplify_map_eq; try done;
    intros v ->; simpl; intros Heq; symmetry in Heq;
    by apply awaited_not_promise in Heq.
Qed.

(** C10. The history of the dispatch is one uninterrupted block per
    entry.  When the four checks of an entry return, its block is the four
    calls on the checks followed at once by the call on the sink, no
    settlement in between: the checks are not awaited.  Each property of
    the bundle submitted is the very value its check returned; when that
    value is a promise, the bundle holds the promise and not what it would
    fulfil with. *)
Theorem bundle_holds_raw_check_returns domain dateOfScan es all sched s :
  run (initiateEvaluation domain dateOfScan)
      (ScanSettles (Fulfils es) :: DupSettles (Fulfils all) :: sched) = Some s →
  ∃ (blocks : list (list event)) (rest : list event),
    w_trace (st_world s)
    = fetched (getConfig domain dateOfScan) es all ++ concat blocks ++ rest ∧
    Forall quiet rest ∧
    Forall2 (λ e block,
      ∀ m b so sc,
        checkMetaData (prop e.2 "meta") all = Return m →
        checkBodyData (prop e.2 "body") = Return b →
        checkSocialData (prop e.2 "social") = Return so →
        checkSchemaData (prop e.2 "schema") = Return sc →
        ∃ config issues,
          block = [ ECheck CheckMetaData [prop e.2 "meta"; all];
                    ECheck CheckBodyData [prop e.2 "body"];
                    ECheck CheckSocialData [prop e.2 "social"];
                    ECheck CheckSchemaData [prop e.2 "schema"];
                    EUpdateIssueDocument config issues ] ∧
          stored_raw issues "meta" m ∧ stored_raw issues "body" b ∧
          stored_raw issues "social" so ∧ stored_raw issues "schema" sc)
      es blocks.
Proof.
  intros (bs & rest & Htr & Hq & Hbs & _)%run_dispatched.
  exists bs.*1, rest. do 2 (split; [done|]).
  apply Forall2_fmap_r. eapply Forall2_impl; [exact Hbs|].
  intros e [t p] Hblk m b so sc Hm Hb Hso Hsc. simpl in *.
  destruct Hblk as [issues (m' & b' & so' & sc' & Hm' & Hb' & Hso' & Hsc' & ->)
                   |n c args err Hn Hpre Herr].
  - rewrite Hm in Hm'. rewrite Hb in Hb'. rewrite Hso in Hso'. rewrite Hsc in Hsc'.
    injection Hm' as <-. injection Hb' as <-.
    injection Hso' as <-. injection Hsc' as <-.
    eexists _, _. split; [reflexivity|]. apply bundle_stored_raw.
  - destruct (thrown_checks_fail _ _ _ _ _ _ Hn Herr).
    unfold checks_pass. by rewrite Hm, Hb, Hso, Hsc.
Qed.

(** *** Runs exist *)

Lemma run_app s sched1 sched2 :
  run s (sched1 ++ sched2)
  = match run s sched1 with
    | Some s' => run s' sched2
    | None => None
    end.
Proof.
  revert s. induction sched1 as [|a sched1 IH]; intros s; simpl; [done|].
  destruct (step s a); [apply IH|done].
Qed.

(** Both fetches fulfilling always leads past the dispatch, with a pending
    promise for each entry whose checks pass and a rejected one for each
    entry with a throwing check. *)
Lemma dispatch_total domain dateOfScan es all :
  ∃ s, run (initiateEvaluation domain dateOfScan)
           [ScanSettles (Fulfils es); DupSettles (Fulfils all)] = Some s ∧
       dispatched (getConfig domain dateOfScan) es all s ∧
       Forall2 (λ e p, if decide (checks_pass all e.2) then p = Pending
                       else is_rejected p) es (st_promises s).
Proof.
  simpl. unfold step; simpl. unfold log; simpl.
  set (cfg := getConfig domain dateOfScan).
  set (w := World cfg _).
  destruct (dispatch_blocks all es w) as (bs & Hmap & Hbs).
  rewrite Hmap. eexists. split; [reflexivity|]. split.
  - apply (run_dispatched domain dateOfScan es all []).
    simpl. unfold step; simpl. unfold log; simpl. fold cfg. fold w.
    by rewrite Hmap.
  - destruct (promise_all_world (World (config_after es (w_config w))
                                   (w_trace w ++ concat bs.*1)) bs.*2)
      as (-> & _).
    apply Forall2_fmap_r. eapply Forall2_impl; [exact Hbs|].
    intros e [t p] Hblk. simpl in *.
    destruct (block_sink_calls _ _ _ _ _ Hblk)
      as [(Hpass & -> & _)|(Hfail & [err ->] & _)]; by destruct (decide _).
Qed.

(** From any state past the dispatch in which no promise is rejected, the
    environment fulfilling what is pending makes the call resolve. *)
Lemma fulfil_pending_resolves cfg es all s done ps :
  dispatched cfg es all s →
  st_promises s = done ++ ps →
  Forall is_fulfilled done →
  Forall (λ p, ¬ is_rejected p) ps →
  ∃ s', run s (fulfil_pending (length done) ps) = Some s' ∧ st_pc s' = Resolved.
Proof.
  revert s done. induction ps as [|p ps IH]; intros s done Hd Hps Hdone Hnr.
  - exists s. split; [done|]. apply (dispatched_pc _ _ _ _ Hd).
    by rewrite Hps, app_nil_r.
  - apply Forall_cons in Hnr as [Hp Hnr].
    destruct p as [|v|err]; simpl; [| |done].
    + assert (Hi : st_promises s !! length done = Some Pending).
      { rewrite Hps. by apply list_lookup_middle. }
      destruct (dispatched_settle _ _ _ _ _ (Fulfils JUndefined) Hd Hi)
        as (s1 & Hstep & Hps1 & _).
      rewrite Hstep.
      replace (S (length done)) with (length (done ++ [Fulfilled JUndefined]))
        by (rewrite length_app; simpl; lia).
      apply IH.
      * by eapply step_dispatched.
      * rewrite Hps1, Hps, <- app_assoc. simpl.
        rewrite insert_app_r_alt by done. by rewrite Nat.sub_diag.
      * apply Forall_app. by split; [|repeat constructor].
      * done.
    + replace (S (length done)) with (length (done ++ [Fulfilled v]))
        by (rewrite length_app; simpl; lia).
      apply IH; [done| |apply Forall_app; by split; [|repeat constructor]|done].
      by rewrite Hps, <- app_assoc.
Qed.

(** When no check throws on any entry there is a run that resolves. *)
Lemma passing_checks_can_resolve domain dateOfScan es all :
  Forall (λ e, checks_pass all e.2) es →
  ∃ sched s,
    run (initiateEvaluation domain dateOfScan)
        (ScanSettles (Fulfils es) :: DupSettles (Fulfils all) :: sched) = Some s ∧
    st_pc s = Resolved.
Proof.
  intros Hpass.
  destruct (dispatch_total domain dateOfScan es all) as (s0 & Hrun & Hd & Hps).
  destruct (fulfil_pending_resolves _ _ _ s0 [] (st_promises s0) Hd)
    as (s & Hrun' & Hpc); [done|constructor| |].
  - clear -Hpass Hps. induction Hps as [|e p es ps Hp _ IH]; [constructor|].
    apply Forall_cons in Hpass as [He Hpass].
    constructor; [|auto]. destruct (decide _); [subst; simpl; tauto|done].
  - exists (fulfil_pending 0 (st_promises s0)), s. split; [|done].
    change (ScanSettles (Fulfils es) :: DupSettles (Fulfils all)
              :: fulfil_pending 0 (st_promises s0))
      with ([ScanSettles (Fulfils es); DupSettles (Fulfils all)]
              ++ fulfil_pending 0 (st_promises s0)).
    by rewrite run_app, Hrun.
Qed.

(** The other face of the shared [config]: once the tasks are dispatched
    the one object holds the key of the last entry, whichever submission a
    collaborator that kept the reference is working on. *)
Lemma shared_config_ends_at_last_urlId domain dateOfScan es e all sched s :
  run (initiateEvaluation domain dateOfScan)
      (ScanSettles (Fulfils (es ++ [e])) :: DupSettles (Fulfils all) :: sched)
  = Some s →
  prop (w_config (st_world s)) "urlId" = JStr e.1.
Proof.
  intros (_ & _ & _ & _ & _ & _ & -> & _)%run_dispatched.
  unfold config_after. rewrite foldl_app. simpl.
  unfold prop. by rewrite lookup_insert_eq.
Qed.

End EvaluatorFacts.

(** * Properties of the authentication wrappers *)

Section AuthFacts.
Import Auth.
Context `{P : Provider}.

Ltac run_wrapper :=
  unfold register, login, resetPassword, try_catch, bind, emit, modify, await,
    ret, throw; simpl.

(** C7. When the provider's promise rejects with [err], each wrapper
    rejects with [err] itself, and all it has done is the call on the
    provider and one line on the console that carries [err]. *)
Theorem wrappers_rethrow_provider_error (email password err : jsval)
    (t0 : list event) :
  (createUserWithEmailAndPassword auth email password = Rejects err →
   register email password t0
   = (t0 ++ [ECreateUserWithEmailAndPassword auth email password;
             EConsoleLog "Registration failed:" [err]], Throw err)) ∧
  (signInWithEmailAndPassword auth email password = Rejects err →
   login email password t0
   = (t0 ++ [ESignInWithEmailAndPassword auth email password;
             EConsoleLog "Sign-in failed:" [err]], Throw err)) ∧
  (sendPasswordResetEmail auth email = Rejects err →
   resetPassword email t0
   = (t0 ++ [ESendPasswordResetEmail auth email;
             EConsoleLog "Password reset failed:" [err]], Throw err)).
Proof.
  repeat split; intros H; run_wrapper; rewrite H; simpl;
    by rewrite <- app_assoc.
Qed.

(** C8. When the provider's sign-in fulfils with a credential, [login]
    resolves to an object whose own properties are exactly [uid] and
    [email], each read from the credential's [user]; when the provider's
    sign-up fulfils, [register] resolves to the credential's [user]
    itself. *)
Theorem login_and_register_results (email password : jsval)
    (cred : UserCredential) (t0 : list event) :
  (signInWithEmailAndPassword auth email password = Fulfils cred →
   ∃ o : obj,
     login email password t0
     = (t0 ++ [ESignInWithEmailAndPassword auth email password;
               EConsoleLog "Login successful" []], Return o) ∧
     dom o = ({["uid"; "email"]} : gset string) ∧
     o !! "uid" = Some (prop (user cred) "uid") ∧
     o !! "email" = Some (prop (user cred) "email")) ∧
  (createUserWithEmailAndPassword auth email password = Fulfils cred →
   register email password t0
   = (t0 ++ [ECreateUserWithEmailAndPassword auth email password;
             EConsoleLog "Registration successful" []], Return (user cred))).
Proof.
  split; intros H; run_wrapper; rewrite H; simpl.
  - eexists. split; [by rewrite <- app_assoc|].
    split; [rewrite !dom_insert_L, dom_empty_L; set_solver|].
    by simplify_map_eq.
  - by rewrite <- app_assoc.
Qed.

End AuthFacts.

(** * Further properties of the orchestrator *)

Section OrchestratorBeyond.
Import Evaluator.
Context `{K : Collaborators}.

Implicit Types (w : world) (es : entries) (ps : list promise) (s : state).
Implicit Types (t : list event) (e : string * obj) (all : jsval) (cfg : obj).

Lemma config_after_last es cfg :
  config_after es cfg
  = match last es with
    | Some e => <["urlId" := JStr e.1]> cfg
    | None => cfg
    end.
Proof.
  induction es as [|e es IH] using rev_ind; [done|].
  unfold config_after in *. rewrite foldl_app, last_snoc. simpl.
  rewrite IH. destruct (last es); [|done]. apply insert_insert_eq.
Qed.

(** X1. The tasks write their keys into the one [config] object of the
    run, one over the other: in every state past the dispatch the object
    is what [getConfig] returned with [urlId] set to the key of the last
    entry, and on an empty result set it is what [getConfig] returned. *)
Theorem shared_config_after_dispatch domain dateOfScan es all sched s :
  run (initiateEvaluation domain dateOfScan)
      (ScanSettles (Fulfils es) :: DupSettles (Fulfils all) :: sched) = Some s →
  w_config (st_world s)
  = match last es with
    | Some e => <["urlId" := JStr e.1]> (getConfig domain dateOfScan)
    | None => getConfig domain dateOfScan
    end.
Proof.
  intros (_ & _ & _ & _ & _ & _ & -> & _)%run_dispatched.
  apply config_after_last.
Qed.

(** X2. What the sink is handed as [config] differs from what
    [getConfig] returned in [urlId] only: every other property, present or
    absent, is as [getConfig] left it. *)
Theorem sink_config_differs_in_urlId_only domain dateOfScan es all sched s :
  run (initiateEvaluation domain dateOfScan)
      (ScanSettles (Fulfils es) :: DupSettles (Fulfils all) :: sched) = Some s →
  Forall (λ c : obj * obj,
            ∀ k : string, k ≠ "urlId" →
              c.1 !! k = getConfig domain dateOfScan !! k)
         (sink_calls (w_trace (st_world s))).
Proof.
  intros Hd%run_dispatched.
  eapply Forall2_Forall_r; [by apply dispatched_sink_calls|].
  apply Forall_forall. intros e _ c [-> _] k Hk.
  by rewrite lookup_insert_ne.
Qed.

Lemma rejected_stays s sched s' err :
  st_pc s = RejectedWith err → run s sched = Some s' →
  st_pc s' = RejectedWith err.
Proof.
  revert s. induction sched as [|a sched IH]; simpl; intros s Hpc Hrun.
  - by injection Hrun as <-.
  - destruct (step s a) as [s1|] eqn:Hstep; [|done].
    apply (IH s1); [|done].
    unfold step in Hstep. rewrite Hpc in Hstep.
    destruct a as [r|r|i r]; try done.
    destruct (st_promises s !! i) as [[| |]|]; try done.
    by injection Hstep as <-.
Qed.

Lemma resolved_stuck s a : st_pc s = Resolved → step s a = None.
Proof. intros Hpc. unfold step. rewrite Hpc. by destruct a. Qed.

(** X4. A settled call stays as it settled.  Once the call has rejected,
    whatever submissions settle later, and however, it is still rejected
    with the same error; once it has resolved, no settlement is left to
    come. *)
Theorem settled_outcome_is_final s sched s' :
  settled (st_pc s) → run s sched = Some s' →
  st_pc s' = st_pc s ∧ (st_pc s = Resolved → sched = []).
Proof.
  intros Hset Hrun. destruct (st_pc s) as [| | | |err] eqn:Hpc; try done.
  - destruct sched as [|a sched]; simpl in Hrun.
    + injection Hrun as <-. by rewrite Hpc.
    + by rewrite resolved_stuck in Hrun.
  - split; [|done]. by eapply rejected_stays.
Qed.

Lemma errors_logged_app t1 t2 :
  errors_logged (t1 ++ t2) = errors_logged t1 ++ errors_logged t2.
Proof. apply omap_app. Qed.

Lemma checks_log_nothing (l : list (check * list jsval)) :
  errors_logged (check_event <$> l) = [].
Proof. by induction l. Qed.

Lemma block_logs_nothing all cfg e t p :
  task_block all cfg e t p → errors_logged t = [].
Proof.
  destruct 1; [|apply checks_log_nothing].
  by rewrite errors_logged_app, checks_log_nothing.
Qed.

Lemma blocks_log_nothing all cfg es (bs : list (list event * promise)) :
  Forall2 (λ e b, task_block all cfg e b.1 b.2) es bs →
  errors_logged (concat bs.*1) = [].
Proof.
  induction 1 as [|e [t p] es bs Hblk _ IH]; [done|].
  change (concat ((t, p) :: bs).*1) with (t ++ concat bs.*1).
  rewrite errors_logged_app, IH. simpl in Hblk.
  by rewrite (block_logs_nothing _ _ _ _ _ Hblk).
Qed.

Lemma promise_all_logged_once w ps :
  errors_logged (w_trace w) = [] → logged_once (promise_all w ps).
Proof.
  intros Hw. unfold promise_all, logged_once.
  destruct (first_rejection ps); simpl.
  - by rewrite errors_logged_app, Hw.
  - by destruct (forallb is_fulfilled ps).
Qed.

Lemma step_logged_once s a s' :
  logged_once s → step s a = Some s' → logged_once s'.
Proof.
  unfold logged_once, step. intros Hlog Hstep.
  destruct (st_pc s) as [|scanResults| | |err0] eqn:Hpc; try done.
  - destruct a as [[es|err]|r|i r]; try done; injection Hstep as <-; simpl;
      rewrite !errors_logged_app, Hlog; done.
  - destruct a as [r|[all|err]|i r]; try done.
    + destruct (dispatch_blocks all scanResults
                  (log (ESettled (DupSettles (Fulfils all))) (st_world s)))
        as (bs & Hmap & Hbs).
      rewrite Hmap in Hstep. injection Hstep as <-.
      apply promise_all_logged_once. simpl.
      by rewrite !errors_logged_app, Hlog, (blocks_log_nothing _ _ _ _ Hbs).
    + injection Hstep as <-; simpl. by rewrite !errors_logged_app, Hlog.
  - destruct a as [r|r|i r]; try done.
    destruct (st_promises s !! i) as [[| |]|]; try done.
    destruct r as [v|err]; simpl in Hstep.
    + destruct (forallb is_fulfilled _); injection Hstep as <-; simpl;
        by rewrite errors_logged_app, Hlog.
    + injection Hstep as <-; simpl. by rewrite !errors_logged_app, Hlog.
  - destruct a as [r|r|i r]; try done.
    destruct (st_promises s !! i) as [[| |]|]; try done.
    injection Hstep as <-; simpl. by rewrite errors_logged_app, Hlog, app_nil_r.
Qed.

(** X5. In every run the [catch] block runs at most once: the console
    holds exactly one line, carrying the error the call rejected with,
    when the call has rejected, and no line otherwise, however many
    fetches or submissions fail. *)
Theorem one_console_line_per_rejection domain dateOfScan sched s :
  run (initiateEvaluation domain dateOfScan) sched = Some s →
  errors_logged (w_trace (st_world s))
  = match st_pc s with
    | RejectedWith err => [("Error during evaluation:"%string, err)]
    | _ => []
    end.
Proof.
  assert (Hinit : logged_once (initiateEvaluation domain dateOfScan)) by done.
  revert Hinit. generalize (initiateEvaluation domain dateOfScan).
  induction sched as [|a sched IH]; simpl; intros s0 Hlog Hrun.
  - by injection Hrun as <-.
  - destruct (step s0 a) as [s1|] eqn:Hstep; [|done].
    apply (IH s1); [|done]. by eapply step_logged_once.
Qed.

Lemma callback_promise all e w : (callback all e w).2 = task_promise all e.
Proof.
  unfold task_promise, callback, async, try_catch, invoke, updateIssueDocument,
    emit, set_config, bind, modify, lift, gets, ret; simpl.
  unfold arg; simpl.
  destruct (checkMetaData (prop e.2 "meta") all); [|done].
  destruct (checkBodyData (prop e.2 "body")); [|done].
  destruct (checkSocialData (prop e.2 "social")); [|done].
  by destruct (checkSchemaData (prop e.2 "schema")).
Qed.

Lemma array_map_promises all es w :
  ∃ w', array_map (callback all) es w = (w', Return (omap (λ e,
          match task_promise all e with Return p => Some p | Throw _ => None end)
          es))
        ∧ Forall (λ e, returns (task_promise all e)) es.
Proof.
  revert w. induction es as [|e es IH]; intros w; [by eexists|].
  destruct (callback_block all e w) as (t & p & Hcb & _).
  pose proof (callback_promise all e w) as Hp. rewrite Hcb in Hp. simpl in Hp.
  destruct (IH (World (<["urlId" := JStr e.1]> (w_config w)) (w_trace w ++ t)))
    as (w' & Hmap & Hall).
  exists w'. split.
  - simpl. unfold bind at 1. rewrite Hcb. unfold bind at 1. rewrite Hmap.
    by rewrite <- Hp.
  - constructor; [by rewrite <- Hp|done].
Qed.

Lemma first_rejection_after_pending all es1 e es2 err :
  Forall (λ e', task_promise all e' = Return Pending) es1 →
  task_promise all e = Return (Rejected err) →
  first_rejection (omap (λ e',
      match task_promise all e' with Return p => Some p | Throw _ => None end)
      (es1 ++ e :: es2)) = Some err.
Proof.
  intros Hes1 He. induction Hes1 as [|e' es1 He' _ IH]; simpl.
  - by rewrite He.
  - by rewrite He'.
Qed.

(** X3. A throwing check fails the call at once.  When the task of an
    entry is rejected by one of its checks and the tasks of all earlier
    entries submit their bundles, the call rejects with that check's
    error as soon as the tasks are dispatched, and no settlement of a
    submission, made before or after that entry, changes this. *)
Theorem first_throwing_entry_rejects_the_call
    domain dateOfScan es1 e es2 all err sched s :
  Forall (λ e', task_promise all e' = Return Pending) es1 →
  task_promise all e = Return (Rejected err) →
  run (initiateEvaluation domain dateOfScan)
      (ScanSettles (Fulfils (es1 ++ e :: es2)) :: DupSettles (Fulfils all) :: sched)
  = Some s →
  st_pc s = RejectedWith err.
Proof.
  intros Hes1 He. simpl. unfold step; simpl. unfold log; simpl.
  match goal with
  | |- context [array_map _ _ ?w] =>
      destruct (array_map_promises all (es1 ++ e :: es2) w) as (w' & -> & _)
  end.
  apply rejected_stays. unfold promise_all.
  by rewrite (first_rejection_after_pending _ _ _ _ _ Hes1 He).
Qed.

Lemma step_past_dispatch s a s' :
  past_dispatch s → step s a = Some s' →
  past_dispatch s' ∧
  ∃ rest, w_trace (st_world s') = w_trace (st_world s) ++ rest ∧ Forall quiet rest.
Proof.
  unfold past_dispatch, step. intros Hpast Hstep.
  destruct (st_pc s) as [| | | |err0]; try done;
    destruct a as [r|r|i r]; try done;
    destruct (st_promises s !! i) as [[| |]|]; try done.
  - destruct r as [v|err]; simpl in Hstep.
    + destruct (forallb is_fulfilled _); injection Hstep as <-; simpl;
        (split; [done|]); eexists; (split; [done|]); by repeat constructor.
    + injection Hstep as <-; simpl. split; [done|].
      eexists; split; [by rewrite <- app_assoc|]. by repeat constructor.
  - injection Hstep as <-; simpl. split; [done|].
    eexists; split; [done|]. by repeat constructor.
Qed.

Lemma run_past_dispatch s sched s' :
  past_dispatch s → run s sched = Some s' →
  sink_calls (w_trace (st_world s')) = sink_calls (w_trace (st_world s)) ∧
  check_calls (w_trace (st_world s')) = check_calls (w_trace (st_world s)).
Proof.
  revert s. induction sched as [|a sched IH]; simpl; intros s Hpast Hrun.
  - by injection Hrun as <-.
  - destruct (step s a) as [s1|] eqn:Hstep; [|done].
    destruct (step_past_dispatch _ _ _ Hpast Hstep) as (Hpast1 & rest & Htr & Hq).
    destruct (IH s1 Hpast1 Hrun) as [-> ->].
    rewrite Htr, sink_calls_app, check_calls_app.
    destruct (quiet_no_calls _ Hq) as [-> ->]. by rewrite !app_nil_r.
Qed.

(** X6. All calls on the checks and on the sink are made at the
    dispatch: two runs on the same fetched data made the same calls, with
    the same arguments and in the same order, whatever the order and the
    outcome of the settlements in each.  No settlement makes the
    orchestrator call a check or the sink again. *)
Theorem calls_do_not_depend_on_settlements
    domain dateOfScan es all sched1 sched2 s1 s2 :
  run (initiateEvaluation domain dateOfScan)
      (ScanSettles (Fulfils es) :: DupSettles (Fulfils all) :: sched1) = Some s1 →
  run (initiateEvaluation domain dateOfScan)
      (ScanSettles (Fulfils es) :: DupSettles (Fulfils all) :: sched2) = Some s2 →
  sink_calls (w_trace (st_world s1)) = sink_calls (w_trace (st_world s2)) ∧
  check_calls (w_trace (st_world s1)) = check_calls (w_trace (st_world s2)).
Proof.
  destruct (dispatch_total domain dateOfScan es all)
    as (s0 & Hrun0 & (_ & _ & _ & _ & _ & _ & _ & Hj) & _).
  assert (Hpast : past_dispatch s0).
  { unfold past_dispatch. unfold join_inv in Hj. by destruct (st_pc s0). }
  change (ScanSettles (Fulfils es) :: DupSettles (Fulfils all) :: sched1)
    with ([ScanSettles (Fulfils es); DupSettles (Fulfils all)] ++ sched1).
  change (ScanSettles (Fulfils es) :: DupSettles (Fulfils all) :: sched2)
    with ([ScanSettles (Fulfils es); DupSettles (Fulfils all)] ++ sched2).
  rewrite !run_app, Hrun0. intros H1 H2.
  destruct (run_past_dispatch _ _ _ Hpast H1) as [-> ->].
  by destruct (run_past_dispatch _ _ _ Hpast H2) as [-> ->].
Qed.

Lemma fulfil_in_any_order cfg es all s (l : list nat) (v : nat → jsval) :
  dispatched cfg es all s →
  NoDup l →
  (∀ i, i ∈ l → st_promises s !! i = Some Pending) →
  ∃ s', run s ((λ i, SinkSettles i (Fulfils (v i))) <$> l) = Some s' ∧
        dispatched cfg es all s' ∧
        ∀ j, st_promises s' !! j
             = if decide (j ∈ l) then Some (Fulfilled (v j))
               else st_promises s !! j.
Proof.
  revert s. induction l as [|i l IH]; intros s Hd Hnd Hpend.
  - exists s. do 2 (split; [done|]). intros j.
    destruct (decide (j ∈ [])) as [Hin|_]; [by apply elem_of_nil in Hin|done].
  - apply NoDup_cons in Hnd as [Hi Hnd].
    assert (Hpi : st_promises s !! i = Some Pending) by (apply Hpend; left).
    destruct (dispatched_settle _ _ _ _ _ (Fulfils (v i)) Hd Hpi)
      as (s1 & Hstep & Hps1 & _).
    destruct (IH s1) as (s' & Hrun & Hd' & Hlook).
    + by eapply step_dispatched.
    + done.
    + intros j Hj. rewrite Hps1, list_lookup_insert_ne; [|by intros ->].
      apply Hpend. by right.
    + exists s'. rewrite fmap_cons. simpl. rewrite Hstep.
      do 2 (split; [done|]). intros j. rewrite Hlook, Hps1.
      destruct (decide (j ∈ l)) as [Hjl|Hjl].
      * rewrite decide_True; [done|by right].
      * destruct (decide (j = i)) as [->|Hji].
        -- rewrite decide_True by left.
           apply list_lookup_insert_eq. by eapply lookup_lt_Some.
        -- rewrite decide_False; [by rewrite list_lookup_insert_ne|].
           intros [->|?]%elem_of_cons; done.
Qed.

(** X7. The submissions may settle in any order.  When no check throws
    on any entry and the environment fulfils the submissions one by one
    in any order at all, each once, the run goes through and the call
    resolves. *)
Theorem fulfilment_in_any_order_resolves
    domain dateOfScan es all (l : list nat) (v : nat → jsval) :
  Forall (λ e, checks_pass all e.2) es →
  l ≡ₚ seq 0 (length es) →
  ∃ s, run (initiateEvaluation domain dateOfScan)
           (ScanSettles (Fulfils es) :: DupSettles (Fulfils all)
              :: ((λ i, SinkSettles i (Fulfils (v i))) <$> l)) = Some s ∧
       st_pc s = Resolved.
Proof.
  intros Hpass Hperm.
  destruct (dispatch_total domain dateOfScan es all) as (s0 & Hrun0 & Hd & Hps).
  assert (Hlen : length (st_promises s0) = length es)
    by (symmetry; by eapply Forall2_length).
  assert (Hpend : ∀ i, i ∈ l → st_promises s0 !! i = Some Pending).
  { intros i Hi. rewrite Hperm in Hi. apply elem_of_seq in Hi as [_ Hi].
    destruct (lookup_lt_is_Some_2 es i) as [e He]; [simpl in Hi; lia|].
    destruct (Forall2_lookup_l _ _ _ _ _ Hps He) as (p & Hp & Hcase).
    rewrite decide_True in Hcase; [by subst|].
    eapply (proj1 (Forall_lookup _ _) Hpass); eauto. }
  destruct (fulfil_in_any_order _ _ _ s0 l v Hd) as (s & Hrun & Hd' & Hlook);
    [by rewrite Hperm; apply NoDup_seq|done|].
  exists s. split.
  - change (ScanSettles (Fulfils es) :: DupSettles (Fulfils all)
              :: ((λ i, SinkSettles i (Fulfils (v i))) <$> l))
      with ([ScanSettles (Fulfils es); DupSettles (Fulfils all)]
              ++ ((λ i, SinkSettles i (Fulfils (v i))) <$> l)).
    by rewrite run_app, Hrun0.
  - apply (dispatched_pc _ _ _ _ Hd'). apply Forall_lookup. intros j p Hj.
    rewrite Hlook in Hj. destruct (decide (j ∈ l)) as [_|Hjl].
    + by injection Hj as <-.
    + destruct Hjl. rewrite Hperm. apply elem_of_seq.
      apply lookup_lt_Some in Hj. lia.
Qed.

Lemma fulfilments_reject_nothing s sched s' :
  Forall is_fulfilment sched →
  Forall (λ p, ¬ is_rejected p) (st_promises s) →
  run s sched = Some s' →
  Forall (λ p, ¬ is_rejected p) (st_promises s').
Proof.
  intros Hsched. revert s. induction Hsched as [|a sched Ha _ IH]; simpl;
    intros s Hnr Hrun.
  - by injection Hrun as <-.
  - destruct (step s a) as [s1|] eqn:Hstep; [|done].
    apply (IH s1); [|done].
    destruct a as [r|r|i [v|err]]; try done.
    unfold step in Hstep.
    destruct (st_pc s); try done;
      destruct (st_promises s !! i) as [[| |]|]; try done; simpl in Hstep.
    + destruct (forallb is_fulfilled _); injection Hstep as <-; simpl;
        apply Forall_insert; auto.
    + injection Hstep as <-; simpl. apply Forall_insert; auto.
Qed.

(** X12. The first rejection wins.  When no check throws, the
    environment first fulfils some submissions and then rejects one with
    [err], the call rejects with [err], whatever settles afterwards. *)
Theorem first_sink_rejection_rejects_the_call
    domain dateOfScan es all before i err after s :
  Forall (λ e, checks_pass all e.2) es →
  Forall is_fulfilment before →
  run (initiateEvaluation domain dateOfScan)
      (ScanSettles (Fulfils es) :: DupSettles (Fulfils all)
         :: before ++ SinkSettles i (Rejects err) :: after) = Some s →
  st_pc s = RejectedWith err.
Proof.
  intros Hpass Hbefore.
  destruct (dispatch_total domain dateOfScan es all) as (s0 & Hrun0 & Hd & Hps).
  change (ScanSettles (Fulfils es) :: DupSettles (Fulfils all)
            :: before ++ SinkSettles i (Rejects err) :: after)
    with ([ScanSettles (Fulfils es); DupSettles (Fulfils all)]
            ++ before ++ SinkSettles i (Rejects err) :: after).
  rewrite run_app, Hrun0, run_app.
  destruct (run s0 before) as [s1|] eqn:Hrun1; [|done]. simpl.
  destruct (step s1 (SinkSettles i (Rejects err))) as [s2|] eqn:Hstep; [|done].
  apply rejected_stays.
  assert (Hnr : Forall (λ p, ¬ is_rejected p) (st_promises s1)).
  { eapply fulfilments_reject_nothing; [exact Hbefore| |exact Hrun1].
    clear -Hpass Hps. induction Hps as [|e p es ps Hp _ IH]; [constructor|].
    apply Forall_cons in Hpass as [He Hpass]. constructor; [|auto].
    rewrite decide_True in Hp by done. subst. simpl. tauto. }
  pose proof (run_dispatched_from _ _ _ _ _ _ Hd Hrun1) as Hd1.
  destruct (dispatched_pc _ _ _ _ Hd1) as (_ & Hrej & _).
  unfold step in Hstep.
  destruct (st_pc s1) as [| | | |err0] eqn:Hpc; try done.
  - destruct (st_promises s1 !! i) as [[| |]|]; try done.
    by injection Hstep as <-.
  - pose proof (proj1 Hrej (ex_intro _ err0 eq_refl)) as Hex.
    apply Exists_exists in Hex as (p & Hp & Hrp).
    by destruct (proj1 (Forall_forall _ _) Hnr p Hp).
Qed.

Lemma elem_of_concat {A} (x : A) (l : list A) (ls : list (list A)) :
  l ∈ ls → x ∈ l → x ∈ concat ls.
Proof. induction 1; simpl; intros; apply elem_of_app; auto. Qed.

(** X10. Every entry gets its metadata check, on its own [meta] slice
    and the duplicate context, whatever happened to the entries before
    it; the orchestrator does not look at the slice, so an entry without
    a [meta] property has the check called on [undefined]. *)
Theorem metadata_check_runs_for_every_entry
    domain dateOfScan es all sched s (urlId : string) (urlData : obj) :
  run (initiateEvaluation domain dateOfScan)
      (ScanSettles (Fulfils es) :: DupSettles (Fulfils all) :: sched) = Some s →
  (urlId, urlData) ∈ es →
  (CheckMetaData, [prop urlData "meta"; all])
    ∈ check_calls (w_trace (st_world s)) ∧
  (urlData !! "meta" = None →
   (CheckMetaData, [JUndefined; all]) ∈ check_calls (w_trace (st_world s))).
Proof.
  intros (bs & rest & -> & _ & Hbs & _)%run_dispatched Hin.
  assert (Hcall : (CheckMetaData, [prop urlData "meta"; all])
                    ∈ check_calls (fetched (getConfig domain dateOfScan) es all
                                     ++ concat bs.*1 ++ rest)).
  { apply list_elem_of_lookup in Hin as [i Hi].
    destruct (Forall2_lookup_l _ _ _ _ _ Hbs Hi) as ([t p] & Hb & Hblk).
    simpl in Hblk.
    destruct (block_check_calls _ _ _ _ _ Hblk) as ([k Hpre] & Hne & _).
    apply list_elem_of_omap.
    exists (ECheck CheckMetaData [prop urlData "meta"; all]). split; [|done].
    apply elem_of_app. right. apply elem_of_app. left.
    apply (elem_of_concat _ t).
    { apply list_elem_of_fmap. exists (t, p). split; [done|].
      apply list_elem_of_lookup. by exists i. }
    destruct Hblk as [issues _|n c args err _ _ _]; [left|].
    simpl. left. }
  split; [done|]. intros Hnone. unfold prop in Hcall. by rewrite Hnone in Hcall.
Qed.

Lemma fetch_calls_app t1 t2 :
  fetch_calls (t1 ++ t2) = fetch_calls t1 ++ fetch_calls t2.
Proof. apply omap_app. Qed.

Lemma checks_fetch_nothing (l : list (check * list jsval)) :
  fetch_calls (check_event <$> l) = [].
Proof. by induction l. Qed.

Lemma blocks_fetch_nothing all cfg es (bs : list (list event * promise)) :
  Forall2 (λ e b, task_block all cfg e b.1 b.2) es bs →
  fetch_calls (concat bs.*1) = [].
Proof.
  induction 1 as [|e [t p] es bs Hblk _ IH]; [done|].
  change (concat ((t, p) :: bs).*1) with (t ++ concat bs.*1).
  rewrite fetch_calls_app, IH, app_nil_r. simpl in Hblk.
  destruct Hblk; [|apply checks_fetch_nothing].
  by rewrite fetch_calls_app, checks_fetch_nothing.
Qed.

Lemma quiet_fetches_nothing t : Forall quiet t → fetch_calls t = [].
Proof. induction 1 as [|ev t Hev _ IH]; [done|]. by destruct ev. Qed.

(** X11. Each retrieval is made at most once in a run, never again
    after a failure, the scan first; and both are asked for the same
    domain and date, those [getConfig] put into [config]. *)
Theorem fetches_are_made_once_with_config_arguments domain dateOfScan sched s :
  run (initiateEvaluation domain dateOfScan) sched = Some s →
  let cfg := getConfig domain dateOfScan in
  let scan := EGetScanCollection (prop cfg "domain") (prop cfg "dateOfScan") in
  let dup := EGetDataForDuplicateCheck (prop cfg "domain") (prop cfg "dateOfScan") in
  fetch_calls (w_trace (st_world s)) = [scan] ∨
  fetch_calls (w_trace (st_world s)) = [scan; dup].
Proof.
  intros Hrun cfg scan dup.
  destruct (run_shape _ _ _ _ Hrun)
    as [[_ ->]|[(err & _ & ->)|[(es & _ & ->)|[(es & err & _ & ->)
       |(es & all & sched' & _ & (bs & rest & -> & Hq & Hbs & _))]]]].
  1-2: by left.
  1-2: by right.
  right. rewrite !fetch_calls_app.
  by rewrite (blocks_fetch_nothing _ _ _ _ Hbs), (quiet_fetches_nothing _ Hq).
Qed.

End OrchestratorBeyond.

(** * The join and the submissions *)

Section JoinAndSubmissions.
Import Evaluator.
Context `{K : Collaborators}.

Implicit Types (w : world) (es : entries) (ps : list promise) (s : state).
Implicit Types (t : list event) (e : string * obj) (all : jsval) (cfg : obj).

Lemma sink_settlements_app t1 t2 :
  sink_settlements (t1 ++ t2) = sink_settlements t1 ++ sink_settlements t2.
Proof. apply omap_app. Qed.

Lemma checks_settle_nothing (l : list (check * list jsval)) :
  sink_settlements (check_event <$> l) = [].
Proof. by induction l. Qed.

Lemma blocks_settle_nothing all cfg es (bs : list (list event * promise)) :
  Forall2 (λ e b, task_block all cfg e b.1 b.2) es bs →
  sink_settlements (concat bs.*1) = [].
Proof.
  induction 1 as [|e [t p] es bs Hblk _ IH]; [done|].
  change (concat ((t, p) :: bs).*1) with (t ++ concat bs.*1).
  rewrite sink_settlements_app, IH, app_nil_r. simpl in Hblk.
  destruct Hblk; [|apply checks_settle_nothing].
  by rewrite sink_settlements_app, checks_settle_nothing.
Qed.

(** On arrival at the join no submission has settled yet. *)
Lemma dispatch_settles_nothing domain dateOfScan es all s0 :
  run (initiateEvaluation domain dateOfScan)
      [ScanSettles (Fulfils es); DupSettles (Fulfils all)] = Some s0 →
  sink_settlements (w_trace (st_world s0)) = [].
Proof.
  simpl. unfold step; simpl. unfold log; simpl.
  match goal with
  | |- context [array_map _ _ ?w] =>
      destruct (dispatch_blocks all es w) as (bs & -> & Hbs)
  end.
  intros [= <-]. unfold promise_all.
  destruct (first_rejection bs.*2); [|destruct (forallb is_fulfilled bs.*2)];
    simpl; rewrite ?sink_settlements_app, (blocks_settle_nothing _ _ _ _ Hbs);
    done.
Qed.

(** Past the dispatch a step is the settlement of a pending submission,
    and all it does to the promises and to the settlements seen is to
    record it. *)
Lemma step_sink_settles s a s' :
  past_dispatch s → step s a = Some s' →
  past_dispatch s' ∧
  ∃ i r, a = SinkSettles i r ∧
         st_promises s !! i = Some Pending ∧
         st_promises s' = <[i := settle r]> (st_promises s) ∧
         sink_settlements (w_trace (st_world s'))
         = sink_settlements (w_trace (st_world s)) ++ [(i, r)].
Proof.
  unfold past_dispatch, step. intros Hpast Hstep.
  destruct (st_pc s) as [| | | |err0]; try done;
    destruct a as [r|r|i r]; try done;
    destruct (st_promises s !! i) as [[| |]|] eqn:Hi; try done.
  - destruct r as [v|err]; simpl in Hstep.
    + destruct (forallb is_fulfilled _); injection Hstep as <-; simpl;
        (split; [done|]); eexists _, _; (do 3 (split; [done|]));
        by rewrite sink_settlements_app.
    + injection Hstep as <-; simpl. split; [done|].
      eexists _, _. do 3 (split; [done|]).
      by rewrite !sink_settlements_app, app_nil_r.
  - injection Hstep as <-; simpl. split; [done|].
    eexists _, _. do 3 (split; [done|]). by rewrite sink_settlements_app.
Qed.

Lemma step_settlements_recorded es all s a s' :
  past_dispatch s → settlements_recorded es all s → step s a = Some s' →
  settlements_recorded es all s'.
Proof.
  intros Hpast (Hseen & Hful & Hrej) Hstep.
  destruct (step_sink_settles _ _ _ Hpast Hstep)
    as (_ & i & r & -> & Hi & Hps & Htr).
  assert (Hlt : i < length (st_promises s)) by (by eapply lookup_lt_Some).
  unfold settlements_recorded. rewrite Htr, Hps. repeat split.
  - intros j r' [Hold|Hnew%list_elem_of_singleton]%elem_of_app.
    + rewrite list_lookup_insert_ne; [by apply Hseen|].
      intros <-. apply Hseen in Hold. rewrite Hi in Hold. by destruct r'.
    + injection Hnew as -> ->. by apply list_lookup_insert_eq.
  - intros j v Hj. apply elem_of_app.
    destruct (decide (i = j)) as [<-|Hne].
    + rewrite list_lookup_insert_eq in Hj by done. right.
      destruct r; [|done]. injection Hj as ->. apply list_elem_of_singleton.
      done.
    + rewrite list_lookup_insert_ne in Hj by done. left. by apply Hful.
  - intros j err Hj.
    destruct (decide (i = j)) as [<-|Hne].
    + rewrite list_lookup_insert_eq in Hj by done. left.
      destruct r; [done|]. injection Hj as ->.
      apply elem_of_app. right. by apply list_elem_of_singleton.
    + rewrite list_lookup_insert_ne in Hj by done.
      destruct (Hrej j err Hj) as [Hin|Hthrown]; [left|by right].
      apply elem_of_app. by left.
Qed.

Lemma run_settlements_recorded es all s sched s' :
  past_dispatch s → settlements_recorded es all s → run s sched = Some s' →
  settlements_recorded es all s'.
Proof.
  revert s. induction sched as [|a sched IH]; simpl; intros s Hpast Hrec Hrun.
  - by injection Hrun as <-.
  - destruct (step s a) as [s1|] eqn:Hstep; [|done].
    apply (IH s1); [|by eapply step_settlements_recorded|done].
    by destruct (step_sink_settles _ _ _ Hpast Hstep).
Qed.

(** In every run in which both fetches fulfil, the promises and the
    settlements seen agree. *)
Lemma runs_record_settlements domain dateOfScan es all sched s :
  run (initiateEvaluation domain dateOfScan)
      (ScanSettles (Fulfils es) :: DupSettles (Fulfils all) :: sched) = Some s →
  settlements_recorded es all s.
Proof.
  destruct (dispatch_total domain dateOfScan es all)
    as (s0 & Hrun0 & (_ & _ & _ & _ & _ & _ & _ & Hj) & Hps).
  change (ScanSettles (Fulfils es) :: DupSettles (Fulfils all) :: sched)
    with ([ScanSettles (Fulfils es); DupSettles (Fulfils all)] ++ sched).
  rewrite run_app, Hrun0. apply run_settlements_recorded.
  - unfold past_dispatch. unfold join_inv in Hj. by destruct (st_pc s0).
  - unfold settlements_recorded.
    rewrite (dispatch_settles_nothing _ _ _ _ _ Hrun0). repeat split.
    + by intros i r Hin%elem_of_nil.
    + intros i v Hi.
      destruct (Forall2_lookup_r _ _ _ _ _ Hps Hi) as (e & _ & Hp).
      destruct (decide _); [done|by destruct Hp].
    + intros i err Hi. right.
      destruct (Forall2_lookup_r _ _ _ _ _ Hps Hi) as (e & He & Hp).
      exists e. split; [done|]. by destruct (decide _).
Qed.

(** C5. For every run: the call has resolved exactly when both fetches
    have fulfilled, the sink has been handed the bundle of every entry of
    the fetched result set under the entry's own [urlId] (so no check
    threw), and every one of these submissions has been seen to fulfil.
    So the call waits for the submissions, not for their dispatch.  When
    a submission has been seen to reject, the call has rejected.  A
    submission that was made and has not settled is not cancelled:
    whatever the call's own outcome, the environment can still settle it,
    either way; this changes its promise alone, makes no further call, and
    leaves an earlier rejection of the call as it is. *)
Theorem call_resolves_iff_all_submitted_and_fulfilled domain dateOfScan sched s :
  run (initiateEvaluation domain dateOfScan) sched = Some s →
  (st_pc s = Resolved ↔
   ∃ es all sched',
     sched = ScanSettles (Fulfils es) :: DupSettles (Fulfils all) :: sched' ∧
     Forall2 (λ e c, prop c.1 "urlId" = JStr e.1 ∧ bundle_of all e.2 c.2)
             es (sink_calls (w_trace (st_world s))) ∧
     ∀ i, i < length es →
          ∃ v, (i, Fulfils v) ∈ sink_settlements (w_trace (st_world s))) ∧
  (∀ i err, (i, Rejects err) ∈ sink_settlements (w_trace (st_world s)) →
            ∃ err', st_pc s = RejectedWith err') ∧
  (∀ es all sched' i e,
     sched = ScanSettles (Fulfils es) :: DupSettles (Fulfils all) :: sched' →
     es !! i = Some e → checks_pass all e.2 →
     (∀ r, (i, r) ∉ sink_settlements (w_trace (st_world s))) →
     ∀ r, ∃ s',
       step s (SinkSettles i r) = Some s' ∧
       st_promises s' = <[i := settle r]> (st_promises s) ∧
       sink_calls (w_trace (st_world s')) = sink_calls (w_trace (st_world s)) ∧
       check_calls (w_trace (st_world s')) = check_calls (w_trace (st_world s)) ∧
       (∀ err, st_pc s = RejectedWith err → st_pc s' = RejectedWith err)).
Proof.
  intros Hrun. split; [split|split].
  - (* resolved: everything was submitted and has fulfilled *)
    intros Hpc.
    destruct (run_shape _ _ _ _ Hrun)
      as [[_ ->]|[(err & _ & ->)|[(es & _ & ->)|[(es & err & _ & ->)
         |(es & all & sched' & -> & Hd)]]]]; try done.
    exists es, all, sched'. split; [done|].
    pose proof (dispatched_sink_calls _ _ _ _ Hd) as Hcalls.
    pose proof (dispatched_promises _ _ _ _ Hd) as Hps.
    destruct (runs_record_settlements _ _ _ _ _ _ Hrun) as (_ & Hful & _).
    assert (Hall : Forall is_fulfilled (st_promises s))
      by (by apply (dispatched_pc _ _ _ _ Hd)).
    assert (Hfilter : filter (λ e, checks_pass all e.2) es = es).
    { clear -Hps Hall. induction Hps as [|e p es ps [Hp _] _ IH]; [done|].
      apply Forall_cons in Hall as [Hf Hall].
      rewrite filter_cons_True by auto. f_equal. auto. }
    rewrite Hfilter in Hcalls. split.
    + eapply Forall2_impl; [exact Hcalls|]. intros e c [-> Hb]. split; [|done].
      unfold prop. by rewrite lookup_insert_eq.
    + intros i Hi.
      rewrite (Forall2_length _ _ _ Hps) in Hi.
      destruct (lookup_lt_is_Some_2 _ _ Hi) as [p Hp].
      pose proof (proj1 (Forall_lookup _ _) Hall i p Hp) as Hfp.
      destruct p as [|v|err]; try done. exists v. by apply Hful.
  - (* everything was submitted and has fulfilled: resolved *)
    intros (es & all & sched' & -> & _ & Hseen).
    pose proof (run_dispatched _ _ _ _ _ _ Hrun) as Hd.
    destruct (runs_record_settlements _ _ _ _ _ _ Hrun) as (Hrec & _ & _).
    apply (dispatched_pc _ _ _ _ Hd). apply Forall_lookup. intros i p Hp.
    assert (Hi : i < length es).
    { rewrite (Forall2_length _ _ _ (dispatched_promises _ _ _ _ Hd)).
      by eapply lookup_lt_Some. }
    destruct (Hseen i Hi) as [v Hv]. apply Hrec in Hv.
    rewrite Hp in Hv. by injection Hv as ->.
  - (* a rejection seen: the call has rejected *)
    intros i err Hin.
    destruct (run_shape _ _ _ _ Hrun)
      as [[_ ->]|[(err0 & _ & ->)|[(es & _ & ->)|[(es & err0 & _ & ->)
         |(es & all & sched' & -> & Hd)]]]];
      try by apply elem_of_nil in Hin.
    destruct (runs_record_settlements _ _ _ _ _ _ Hrun) as (Hrec & _ & _).
    apply Hrec in Hin. apply (dispatched_pc _ _ _ _ Hd).
    apply Exists_exists. exists (Rejected err). split; [|done].
    apply list_elem_of_lookup. by exists i.
  - (* a submission in flight can still settle *)
    intros es all sched' i e -> He Hpass Hnone r.
    pose proof (run_dispatched _ _ _ _ _ _ Hrun) as Hd.
    destruct (runs_record_settlements _ _ _ _ _ _ Hrun) as (_ & Hful & Hrej).
    assert (Hi : st_promises s !! i = Some Pending).
    { assert (Hlt : i < length (st_promises s)).
      { rewrite <- (Forall2_length _ _ _ (dispatched_promises _ _ _ _ Hd)).
        by eapply lookup_lt_Some. }
      destruct (lookup_lt_is_Some_2 _ _ Hlt) as [[|v|err] Hp]; [done| |].
      - by destruct (Hnone _ (Hful _ _ Hp)).
      - destruct (Hrej _ _ Hp) as [Hin|(e' & He' & Hfail)].
        + by destruct (Hnone _ Hin).
        + rewrite He in He'. by injection He' as <-. }
    destruct (dispatched_settle _ _ _ _ _ r Hd Hi)
      as (s' & Hstep & Hps' & Hsc & Hcc & _ & Hkeep).
    by exists s'.
Qed.

End JoinAndSubmissions.

(** * Further properties of the authentication wrappers *)

Section WrappersBeyond.
Import Auth.
Context `{P : Provider}.

Ltac run_wrapper :=
  unfold register, login, resetPassword, try_catch, bind, emit, modify, await,
    ret, throw; simpl.

(** X8. Whatever the provider answers, a wrapper adds to the history
    exactly one call on the provider, its own, with the [auth] handle and
    the caller's arguments as given, followed by exactly one line on the
    console: no second attempt, no call on another provider function. *)
Theorem wrappers_call_the_provider_once (email password : jsval)
    (t0 : list event) :
  (∃ msg rest,
     (register email password t0).1
     = t0 ++ [ECreateUserWithEmailAndPassword auth email password;
              EConsoleLog msg rest]) ∧
  (∃ msg rest,
     (login email password t0).1
     = t0 ++ [ESignInWithEmailAndPassword auth email password;
              EConsoleLog msg rest]) ∧
  (∃ msg rest,
     (resetPassword email t0).1
     = t0 ++ [ESendPasswordResetEmail auth email; EConsoleLog msg rest]).
Proof.
  repeat split; run_wrapper.
  - destruct (createUserWithEmailAndPassword auth email password); simpl;
      eexists _, _; by rewrite <- app_assoc.
  - destruct (signInWithEmailAndPassword auth email password); simpl;
      eexists _, _; by rewrite <- app_assoc.
  - destruct (sendPasswordResetEmail auth email); simpl;
      eexists _, _; by rewrite <- app_assoc.
Qed.

(** X9. [login] does not look into the user it is given: when the
    sign-in fulfils with a user that has no [uid] or no [email], [login]
    still resolves, and the property is there in the result, with value
    [undefined]. *)
Theorem login_keeps_missing_fields_undefined (email password : jsval)
    (cred : UserCredential) (t0 : list event) :
  signInWithEmailAndPassword auth email password = Fulfils cred →
  ∃ o : obj,
    (login email password t0).2 = Return o ∧
    (user cred !! "uid" = None → o !! "uid" = Some JUndefined) ∧
    (user cred !! "email" = None → o !! "email" = Some JUndefined).
Proof.
  intros H. run_wrapper. rewrite H. simpl. eexists. split; [done|].
  unfold prop. split; intros ->; by simplify_map_eq.
Qed.

End WrappersBeyond.

(** * The properties on sample runs *)

Section Samples.
Import Evaluator Fixtures.

(** In [mixed_run] the body check throws on the second page: on arrival
    at the join the call rejects with that error, and the two submissions
    that were made still settle afterwards, each on its own. *)
Example mixed_run_outcome :
  (λ s, (st_promises s, st_pc s)) <$> run (K := sample) start mixed_run
  = Some ([Rejected (JData 500); Rejected (JData 90); Fulfilled JUndefined],
          RejectedWith (JData 90)).
Proof. by vm_compute. Qed.

Example mixed_run_submissions :
  (λ s, (λ c : obj * obj, prop c.1 "urlId") <$> sink_calls (w_trace (st_world s)))
    <$> run (K := sample) start mixed_run
  = Some [JStr "u1"; JStr "u3"].
Proof. by vm_compute. Qed.

(** The object the sink was handed for "u1" is the run's one [config]:
    read after the dispatch, its [urlId] is that of the last page. *)
Example mixed_run_config_afterwards :
  (λ s, prop (w_config (st_world s)) "urlId") <$> run (K := sample) start mixed_run
  = Some (JStr "u3").
Proof. by vm_compute. Qed.

Example clean_run_outcome :
  (λ s, (st_promises s, st_pc s)) <$> run (K := sample) start clean_run
  = Some ([Fulfilled JUndefined; Fulfilled JUndefined], Resolved).
Proof. by vm_compute. Qed.

(** The sample runs do run: evaluating them gives a state. *)
Ltac evaluated s Hrun :=
  match goal with
  | |- ∃ _, ?r = Some _ ∧ _ =>
      destruct r as [s|] eqn:Hrun; [exists s; split; [reflexivity|]
                                   |vm_compute in Hrun; discriminate Hrun]
  end.

Lemma sink_config_carries_own_urlId_witness :
  ∃ s, run (K := sample) start mixed_run = Some s ∧
       Forall2 (λ e c, prop c.1 "urlId" = JStr e.1 ∧
                       bundle_of (K := sample) (JData 7) e.2 c.2)
               (filter (λ e, checks_pass (K := sample) (JData 7) e.2) three_pages)
               (sink_calls (w_trace (st_world s))).
Proof.
  evaluated s Hrun.
  exact (sink_config_carries_own_urlId (K := sample) _ _ _ _ _ _ Hrun).
Defined.

Lemma resolved_run_submits_each_urlId_once_witness :
  ∃ s, run (K := sample) start clean_run = Some s ∧
       st_pc s = Resolved ∧
       length (sink_calls (w_trace (st_world s))) = 2 ∧
       NoDup ((λ c : obj * obj, prop c.1 "urlId")
                <$> sink_calls (w_trace (st_world s))).
Proof.
  evaluated s Hrun.
  assert (Hpc : st_pc s = Resolved).
  { vm_compute in Hrun. by injection Hrun as <-. }
  split; [done|].
  destruct (resolved_run_submits_each_urlId_once (K := sample) _ _ _ _ Hrun Hpc)
    as (es & all & sched' & [= <- <- <-] & Hlen & _ & Hnd & _).
  split; [done|]. apply Hnd. refine (bool_decide_unpack _ _). by vm_compute.
Defined.

Lemma checks_receive_their_own_slices_witness :
  ∃ s, run (K := sample) start mixed_run = Some s ∧
       ∃ groups, check_calls (w_trace (st_world s)) = concat groups ∧
         Forall2 (λ e g,
                    g `prefix_of` four_calls (JData 7) e.2 ∧ g ≠ [] ∧
                    (checks_pass (K := sample) (JData 7) e.2 →
                     g = four_calls (JData 7) e.2))
                 three_pages groups.
Proof.
  evaluated s Hrun.
  exact (checks_receive_their_own_slices (K := sample) _ _ _ _ _ _ Hrun).
Defined.

Lemma fetches_precede_all_work_witness :
  ∃ s, run (K := sample) start mixed_run = Some s ∧
       ∀ i ev, w_trace (st_world s) !! i = Some ev → per_url_work ev → 3 < i.
Proof.
  evaluated s Hrun.
  destruct (fetches_precede_all_work (K := sample) _ _ _ _ Hrun) as (_ & _ & Hwork).
  intros i ev Hi Hw.
  destruct (Hwork i ev Hi Hw) as (j & c & k & _ & _ & _ & _ & ? & ? & _). lia.
Defined.

Lemma bundle_holds_raw_check_returns_witness :
  ∃ s, run (K := sample) start clean_run = Some s ∧
       ∃ (blocks : list (list event)) (rest : list event),
         w_trace (st_world s)
         = fetched (getConfig (Collaborators := sample) "example.com" "2024-05-01")
                   two_pages (JData 7) ++ concat blocks ++ rest ∧
         Forall quiet rest ∧
         Forall2 (λ e block,
           ∀ m b so sc,
             checkMetaData (Collaborators := sample) (prop e.2 "meta") (JData 7)
               = Return m →
             checkBodyData (Collaborators := sample) (prop e.2 "body") = Return b →
             checkSocialData (Collaborators := sample) (prop e.2 "social")
               = Return so →
             checkSchemaData (Collaborators := sample) (prop e.2 "schema")
               = Return sc →
             ∃ config issues,
               block = [ ECheck CheckMetaData [prop e.2 "meta"; JData 7];
                         ECheck CheckBodyData [prop e.2 "body"];
                         ECheck CheckSocialData [prop e.2 "social"];
                         ECheck CheckSchemaData [prop e.2 "schema"];
                         EUpdateIssueDocument config issues ] ∧
               stored_raw issues "meta" m ∧ stored_raw issues "body" b ∧
               stored_raw issues "social" so ∧ stored_raw issues "schema" sc)
           two_pages blocks.
Proof.
  evaluated s Hrun.
  exact (bundle_holds_raw_check_returns (K := sample) _ _ _ _ _ _ Hrun).
Defined.

Lemma wrappers_rethrow_provider_error_witness :
  let email := JStr "ann@example.com" in
  let password := JStr "hunter2" in
  Auth.register (P := provider_down) email password []
  = ([Auth.ECreateUserWithEmailAndPassword (JData 0) email password;
      Auth.EConsoleLog "Registration failed:" [JData 401]], Throw (JData 401)) ∧
  Auth.login (P := provider_down) email password []
  = ([Auth.ESignInWithEmailAndPassword (JData 0) email password;
      Auth.EConsoleLog "Sign-in failed:" [JData 402]], Throw (JData 402)) ∧
  Auth.resetPassword (P := provider_down) email []
  = ([Auth.ESendPasswordResetEmail (JData 0) email;
      Auth.EConsoleLog "Password reset failed:" [JData 403]], Throw (JData 403)).
Proof.
  intros email password.
  split; [|split].
  - apply (wrappers_rethrow_provider_error (P := provider_down)
             email password (JData 401) []). reflexivity.
  - apply (wrappers_rethrow_provider_error (P := provider_down)
             email password (JData 402) []). reflexivity.
  - apply (wrappers_rethrow_provider_error (P := provider_down)
             email password (JData 403) []). reflexivity.
Defined.

Lemma login_and_register_results_witness :
  let email := JStr "ann@example.com" in
  let password := JStr "hunter2" in
  (∃ o : obj,
     Auth.login (P := provider_up) email password []
     = ([Auth.ESignInWithEmailAndPassword (JData 0) email password;
         Auth.EConsoleLog "Login successful" []], Return o) ∧
     dom o = ({["uid"; "email"]} : gset string) ∧
     o !! "uid" = Some (JStr "uid-1") ∧
     o !! "email" = Some email) ∧
  Auth.register (P := provider_up) email password []
  = ([Auth.ECreateUserWithEmailAndPassword (JData 0) email password;
      Auth.EConsoleLog "Registration successful" []],
     Return (<["email" := email]> (<["uid" := JStr "uid-1"]> ∅))).
Proof.
  intros email password. split.
  - destruct (login_and_register_results (P := provider_up) email password
                {| Auth.user := <["displayName" := JStr "Ann"]>
                     (<["email" := email]> (<["uid" := JStr "uid-1"]> ∅)) |} [])
      as [Hlogin _].
    destruct (Hlogin eq_refl) as (o & Hrun & Hdom & Huid & Hemail).
    exists o. split; [exact Hrun|]. split; [exact Hdom|].
    split; [by rewrite Huid|by rewrite Hemail].
  - destruct (login_and_register_results (P := provider_up) email password
                {| Auth.user := <["email" := email]> (<["uid" := JStr "uid-1"]> ∅) |} [])
      as [_ Hregister].
    exact (Hregister eq_refl).
Defined.

(** *** The join on sample runs *)

(** In [throwing_check_run] the sink is called for the first and the
    third page and both submissions fulfil: every submission that was made
    has succeeded.  The call is rejected all the same, with the error the
    body check threw on the second page. *)
Lemma every_submission_succeeds_yet_call_rejects :
  ∃ s, run (K := sample) start throwing_check_run = Some s ∧
       (λ c : obj * obj, prop c.1 "urlId") <$> sink_calls (w_trace (st_world s))
       = [JStr "u1"; JStr "u3"] ∧
       sink_settlements (w_trace (st_world s))
       = [(0, Fulfils JUndefined); (2, Fulfils JUndefined)] ∧
       every_submission_succeeded (w_trace (st_world s)) ∧
       st_pc s = RejectedWith (JData 90) ∧
       ¬ (st_pc s = Resolved ↔ every_submission_succeeded (w_trace (st_world s))).
Proof.
  evaluated s Hrun.
  assert (Hfacts :
    (λ s, ((λ c : obj * obj, prop c.1 "urlId") <$> sink_calls (w_trace (st_world s)),
           sink_settlements (w_trace (st_world s)),
           st_pc s))
      <$> run (K := sample) start throwing_check_run
    = Some ([JStr "u1"; JStr "u3"],
            [(0, Fulfils JUndefined); (2, Fulfils JUndefined)],
            RejectedWith (JData 90))) by (by vm_compute).
  rewrite Hrun in Hfacts. injection Hfacts as Hids Hseen Hpc.
  assert (Hall : every_submission_succeeded (w_trace (st_world s))).
  { unfold every_submission_succeeded. rewrite Hseen. split.
    - apply (f_equal length) in Hids. rewrite length_fmap in Hids.
      by rewrite Hids.
    - repeat constructor; by eexists. }
  do 4 (split; [done|]).
  intros [_ Hres]. specialize (Hres Hall). by rewrite Hpc in Hres.
Qed.

Lemma call_resolves_iff_all_submitted_and_fulfilled_witness :
  ∃ s, run (K := sample) start clean_run = Some s ∧
       st_pc s = Resolved ∧
       Forall2 (λ e c, prop c.1 "urlId" = JStr e.1 ∧
                       bundle_of (K := sample) (JData 7) e.2 c.2)
               two_pages (sink_calls (w_trace (st_world s))) ∧
       ∀ i, i < 2 →
            ∃ v, (i, Fulfils v) ∈ sink_settlements (w_trace (st_world s)).
Proof.
  evaluated s Hrun.
  assert (Hpc : st_pc <$> run (K := sample) start clean_run = Some Resolved)
    by (by vm_compute).
  rewrite Hrun in Hpc. injection Hpc as Hpc. split; [done|].
  destruct (call_resolves_iff_all_submitted_and_fulfilled (K := sample)
              _ _ _ _ Hrun) as ((Hres & _) & _).
  destruct (Hres Hpc) as (es & all & sched' & [= <- <- <-] & Hcalls & Hseen).
  by split.
Defined.

(** *** The further properties on sample runs *)

Lemma shared_config_after_dispatch_witness :
  ∃ s, run (K := sample) start mixed_run = Some s ∧
       w_config (st_world s)
       = <["urlId" := JStr "u3"]>
           (getConfig (Collaborators := sample) "example.com" "2024-05-01").
Proof.
  evaluated s Hrun.
  exact (shared_config_after_dispatch (K := sample) _ _ _ _ _ _ Hrun).
Defined.

Lemma sink_config_differs_in_urlId_only_witness :
  ∃ s, run (K := sample) start mixed_run = Some s ∧
       Forall (λ c : obj * obj,
                 ∀ k : string, k ≠ "urlId" →
                   c.1 !! k
                   = getConfig (Collaborators := sample)
                       "example.com" "2024-05-01" !! k)
              (sink_calls (w_trace (st_world s))).
Proof.
  evaluated s Hrun.
  exact (sink_config_differs_in_urlId_only (K := sample) _ _ _ _ _ _ Hrun).
Defined.

Lemma first_throwing_entry_rejects_the_call_witness :
  ∃ s, run (K := sample) start mixed_run = Some s ∧
       st_pc s = RejectedWith (JData 90).
Proof.
  evaluated s Hrun.
  apply (first_throwing_entry_rejects_the_call (K := sample)
           "example.com" "2024-05-01"
           [("u1"%string, page 100)] ("u2"%string, bodyless 200)
           [("u3"%string, page 300)] (JData 7) (JData 90)
           [SinkSettles 2 (Fulfils JUndefined); SinkSettles 0 (Rejects (JData 500))]).
  - apply Forall_singleton. by vm_compute.
  - by vm_compute.
  - exact Hrun.
Defined.

Lemma settled_outcome_is_final_witness :
  ∃ s, run (K := sample) start (take 2 mixed_run) = Some s ∧
  ∃ s', run (K := sample) s (drop 2 mixed_run) = Some s' ∧
        settled (st_pc s) ∧ st_pc s' = st_pc s.
Proof.
  evaluated s Hrun.
  destruct (run s (drop 2 mixed_run)) as [s'|] eqn:Hrun'.
  - exists s'. split; [done|].
    assert (Hset : settled (st_pc s)).
    { assert (Hpc : st_pc <$> run (K := sample) start (take 2 mixed_run)
                    = Some (RejectedWith (JData 90))) by (by vm_compute).
      rewrite Hrun in Hpc. injection Hpc as ->. exact I. }
    split; [done|].
    by destruct (settled_outcome_is_final (K := sample) _ _ _ Hset Hrun').
  - assert (Hall : run (K := sample) start mixed_run = None).
    { change mixed_run with (take 2 mixed_run ++ drop 2 mixed_run).
      by rewrite run_app, Hrun. }
    vm_compute in Hall. discriminate Hall.
Defined.

Lemma one_console_line_per_rejection_witness :
  ∃ s, run (K := sample) start mixed_run = Some s ∧
       errors_logged (w_trace (st_world s))
       = match st_pc s with
         | RejectedWith err => [("Error during evaluation:"%string, err)]
         | _ => []
         end.
Proof.
  evaluated s Hrun.
  exact (one_console_line_per_rejection (K := sample) _ _ _ _ Hrun).
Defined.

Lemma calls_do_not_depend_on_settlements_witness :
  ∃ s1, run (K := sample) start mixed_run = Some s1 ∧
  ∃ s2, run (K := sample) start other_mixed_run = Some s2 ∧
        sink_calls (w_trace (st_world s1)) = sink_calls (w_trace (st_world s2)) ∧
        check_calls (w_trace (st_world s1)) = check_calls (w_trace (st_world s2)).
Proof.
  evaluated s1 Hrun1. evaluated s2 Hrun2.
  exact (calls_do_not_depend_on_settlements (K := sample)
           _ _ _ _ _ _ _ _ Hrun1 Hrun2).
Defined.

Lemma fulfilment_in_any_order_resolves_witness :
  ∃ s, run (K := sample) start
           (ScanSettles (Fulfils full_pages) :: DupSettles (Fulfils (JData 7))
              :: ((λ i, SinkSettles i (Fulfils JUndefined)) <$> [2; 0; 1]))
       = Some s ∧
       st_pc s = Resolved.
Proof.
  apply (fulfilment_in_any_order_resolves (K := sample)
           "example.com" "2024-05-01" full_pages (JData 7) [2; 0; 1]
           (λ _, JUndefined)).
  - repeat constructor; by vm_compute.
  - refine (bool_decide_unpack _ _). by vm_compute.
Defined.

Lemma first_sink_rejection_rejects_the_call_witness :
  ∃ s, run (K := sample) start
           (ScanSettles (Fulfils full_pages) :: DupSettles (Fulfils (JData 7))
              :: [SinkSettles 1 (Fulfils JUndefined)]
                 ++ SinkSettles 0 (Rejects (JData 500))
                 :: [SinkSettles 2 (Rejects (JData 501))])
       = Some s ∧
       st_pc s = RejectedWith (JData 500).
Proof.
  evaluated s Hrun.
  apply (first_sink_rejection_rejects_the_call (K := sample)
           "example.com" "2024-05-01" full_pages (JData 7)
           [SinkSettles 1 (Fulfils JUndefined)] 0 (JData 500)
           [SinkSettles 2 (Rejects (JData 501))]).
  - repeat constructor; by vm_compute.
  - by repeat constructor.
  - exact Hrun.
Defined.

Lemma metadata_check_runs_for_every_entry_witness :
  ∃ s, run (K := sample) start blank_page_run = Some s ∧
       (CheckMetaData, [JUndefined; JData 7]) ∈ check_calls (w_trace (st_world s)).
Proof.
  evaluated s Hrun.
  apply (metadata_check_runs_for_every_entry (K := sample)
           "example.com" "2024-05-01" [("u9"%string, ∅)] (JData 7) [] s
           "u9" ∅ Hrun).
  - by left.
  - done.
Defined.

Lemma fetches_are_made_once_with_config_arguments_witness :
  ∃ s, run (K := sample) start mixed_run = Some s ∧
       fetch_calls (w_trace (st_world s))
       = [ EGetScanCollection (JStr "example.com") (JStr "2024-05-01");
           EGetDataForDuplicateCheck (JStr "example.com") (JStr "2024-05-01") ].
Proof.
  evaluated s Hrun.
  destruct (fetches_are_made_once_with_config_arguments (K := sample)
              _ _ _ _ Hrun) as [Hone|Htwo].
  - assert (Hlen : (λ s, length (fetch_calls (w_trace (st_world s))))
                     <$> run (K := sample) start mixed_run = Some 2)
      by (by vm_compute).
    rewrite Hrun in Hlen. injection Hlen as Hlen. by rewrite Hone in Hlen.
  - rewrite Htwo. by vm_compute.
Defined.

Lemma login_keeps_missing_fields_undefined_witness :
  ∃ o : obj,
    (Auth.login (P := provider_sparse) (JStr "ann@example.com") (JStr "hunter2") []).2
    = Return o ∧
    o !! "uid" = Some JUndefined ∧ o !! "email" = Some JUndefined.
Proof.
  destruct (login_keeps_missing_fields_undefined (P := provider_sparse)
              (JStr "ann@example.com") (JStr "hunter2")
              {| Auth.user := <["displayName" := JStr "Ann"]> ∅ |} [] eq_refl)
    as (o & Hrun & Huid & Hemail).
  exists o. split; [exact Hrun|]. split; [by apply Huid|by apply Hemail].
Defined.

End Samples.
